(** * clj-declare-analy: forward-reference lint for Clojure sources

    A shallow embedding of [scripts/clj-declare-analy.py] and the
    properties of its scanner, detector and report.

    Conventions of the model.
    - Text is a [string]; a character stands for a code point below 256
      and is classified as Python classifies that code point ([\s],
      [\w], [str.isupper], [str.strip]).  The constant message texts of
      the script are kept as their UTF-8 bytes.
    - A Python [int] is a [Z]; a [dict] is a [gmap]; a [set] is a [gset];
      a list of tuples is a list of pairs.
    - [self.issues] is threaded explicitly through the methods that
      append to it.
    - What the operating system decides (the order in which [rglob]
      walks the tree, whether a file can be opened, whether the standard
      output takes a text) is an explicit argument. *)

From Stdlib Require Import ZArith Lia Ascii String List.
From Stdlib.Strings Require Import Byte.
From stdpp Require Import base option list sorting strings gmap pretty.

Local Open Scope string_scope.
Local Open Scope Z_scope.
Local Open Scope list_scope.

(** ** Characters *)

Definition code (c : ascii) : N := N_of_ascii c.

Definition between (lo hi : N) (c : ascii) : bool :=
  ((lo <=? code c) && (code c <=? hi))%N.

(** [str.isspace], which is also the class [\s] of [re] and the set
    removed by [str.strip()]. *)
Definition isspace (c : ascii) : bool :=
  between 9 13 c || between 28 32 c || (code c =? 133)%N || (code c =? 160)%N.

Definition islower_ascii (c : ascii) : bool := between 97 122 c.
Definition isupper_ascii (c : ascii) : bool := between 65 90 c.
Definition isdigit_ascii (c : ascii) : bool := between 48 57 c.

(** [str.isupper] on a one-character string. *)
Definition isupper (c : ascii) : bool :=
  isupper_ascii c || between 192 214 c || between 216 222 c.

(** [str.isalnum] on a one-character string. *)
Definition isalnum (c : ascii) : bool :=
  isdigit_ascii c || isupper_ascii c || islower_ascii c
  || (code c =? 170)%N || between 178 179 c || (code c =? 181)%N
  || between 185 186 c || between 188 190 c
  || between 192 214 c || between 216 246 c || between 248 255 c.

Definition is_char (a c : ascii) : bool := Ascii.eqb a c.

(** ** String helpers *)

Fixpoint lstrip (s : string) : string :=
  match s with
  | String c s' => if isspace c then lstrip s' else s
  | EmptyString => EmptyString
  end.

Fixpoint rstrip (s : string) : string :=
  match s with
  | String c s' =>
      match rstrip s' with
      | EmptyString => if isspace c then EmptyString else String c EmptyString
      | t => String c t
      end
  | EmptyString => EmptyString
  end.

(** [s.strip()] *)
Definition strip (s : string) : string := rstrip (lstrip s).

(** [s.startswith(p)] *)
Definition startswith (p s : string) : bool := String.prefix p s.

(** [p in s] for strings. *)
Fixpoint contains (p s : string) : bool :=
  startswith p s ||
  match s with
  | String _ s' => contains p s'
  | EmptyString => false
  end.

(** [s.split(sep)] for a one-character separator: the pieces between
    the separators, never an empty list. *)
Fixpoint split (sep : ascii) (s : string) : list string :=
  match s with
  | EmptyString => [EmptyString]
  | String c s' =>
      if is_char sep c then EmptyString :: split sep s'
      else match split sep s' with
           | piece :: rest => String c piece :: rest
           | [] => [String c EmptyString]
           end
  end.

(** [s.split('.')[-1]] *)
Definition last_segment (s : string) : string :=
  List.last (split "." s) EmptyString.

(** [x in l] for a list of strings. *)
Definition mem (x : string) (l : list string) : bool :=
  existsb (String.eqb x) l.

(** ** Regular expressions

    The patterns of the script use literals, character classes under
    [?], [*] and [+], and one capturing group.  [re] matches them by
    backtracking, every quantifier greedy.  [exec] is that matcher at a
    fixed start; the group is remembered as the two suffixes of the
    subject at which it opens and closes. *)

Module Re.

Inductive quant := One | Opt | Star | Plus.

Inductive item :=
| Cls (c : ascii -> bool) (q : quant)
| Open
| Close.

Definition regex := list item.

(** A literal text, one item per character. *)
Fixpoint lit (s : string) : regex :=
  match s with
  | String c s' => Cls (is_char c) One :: lit s'
  | EmptyString => []
  end.

Record found := { group_open : string; group_close : string; rest : string }.

Section exec.
Context {A : Type}.

(** [c*] followed by [k]: the longest run first, then shorter ones. *)
Fixpoint greedy (c : ascii -> bool) (s : string)
    (k : string -> option A) : option A :=
  match s with
  | String a s' =>
      if c a then
        match greedy c s' k with
        | Some r => Some r
        | None => k s
        end
      else k s
  | EmptyString => k s
  end.
End exec.

Fixpoint exec (r : regex) (s : string) (o c : string) : option found :=
  match r with
  | [] => Some {| group_open := o; group_close := c; rest := s |}
  | Open :: r' => exec r' s s c
  | Close :: r' => exec r' s o s
  | Cls cl One :: r' =>
      match s with
      | String a s' => if cl a then exec r' s' o c else None
      | EmptyString => None
      end
  | Cls cl Opt :: r' =>
      match s with
      | String a s' =>
          if cl a then
            match exec r' s' o c with
            | Some m => Some m
            | None => exec r' s o c
            end
          else exec r' s o c
      | EmptyString => exec r' s o c
      end
  | Cls cl Star :: r' => greedy cl s (fun s' => exec r' s' o c)
  | Cls cl Plus :: r' =>
      match s with
      | String a s' =>
          if cl a then greedy cl s' (fun s'' => exec r' s'' o c) else None
      | EmptyString => None
      end
  end.

(** [re.match(r, s)] *)
Definition match_ (r : regex) (s : string) : option found :=
  exec r s EmptyString EmptyString.

(** [m.group(1)] *)
Definition group (m : found) : string :=
  substring 0 (String.length (group_open m) - String.length (group_close m))
    (group_open m).

(** The number of characters of [s] that the match [m] at the start of
    [s] covers. *)
Definition width (s : string) (m : found) : nat :=
  (String.length s - String.length (rest m))%nat.

(** [re.search(r, s)]: the match at the leftmost start that has one. *)
Fixpoint search (r : regex) (s : string) : option found :=
  match match_ r s with
  | Some m => Some m
  | None =>
      match s with
      | String _ s' => search r s'
      | EmptyString => None
      end
  end.

(** [re.finditer(r, s)]: the successive non-overlapping matches from
    left to right.  [skip] counts the characters still covered by the
    previous match.  Every pattern of the script needs at least one
    character, so the rule of [re] for empty matches is never used;
    here an empty match is followed by a search one character on. *)
Fixpoint finditer_from (r : regex) (s : string) (skip : nat) : list found :=
  match skip with
  | S n =>
      match s with
      | String _ s' => finditer_from r s' n
      | EmptyString => []
      end
  | O =>
      match match_ r s with
      | Some m =>
          m :: match s with
               | String _ s' => finditer_from r s' (width s m - 1)
               | EmptyString => []
               end
      | None =>
          match s with
          | String _ s' => finditer_from r s' 0
          | EmptyString => []
          end
      end
  end.

Definition finditer (r : regex) (s : string) : list found :=
  finditer_from r s 0.

(** [re.findall(r, s)] for a pattern with one group. *)
Definition findall (r : regex) (s : string) : list string :=
  map group (finditer r s).

(** [re.sub('^' + r, '', s)]: without [re.MULTILINE] the anchor holds at
    the start of [s] only, so at most the match there is removed. *)
Definition sub_at_start (r : regex) (s : string) : string :=
  match match_ r s with
  | Some m => rest m
  | None => s
  end.

End Re.

(** Every character of [s] is in the class [c]. *)
Fixpoint all_chars (c : ascii -> bool) (s : string) : bool :=
  match s with
  | String a s' => c a && all_chars c s'
  | EmptyString => true
  end.

(** The pattern has no group bound. *)
Definition no_group (r : Re.regex) : bool :=
  forallb (fun i => match i with Re.Cls _ _ => true | _ => false end) r.

(** ** The patterns of [parse_file] *)

Definition nl : string := String "010" EmptyString.

Definition not_space_or_close (c : ascii) : bool :=
  negb (isspace c) && negb (is_char ")" c).

(** [\(ns\s+([^\s\)]+)] *)
Definition ns_pattern : Re.regex :=
  List.app (Re.lit "(ns")
  [Re.Cls isspace Re.Plus; Re.Open; Re.Cls not_space_or_close Re.Plus; Re.Close].

(** [:require\s+\[([^\]]+)\]]; the pattern has neither [.] nor an
    anchor, so [re.MULTILINE | re.DOTALL] change nothing. *)
Definition require_pattern : Re.regex :=
  List.app (Re.lit ":require")
  [Re.Cls isspace Re.Plus; Re.Cls (is_char "[") Re.One; Re.Open;
   Re.Cls (fun c => negb (is_char "]" c)) Re.Plus; Re.Close;
   Re.Cls (is_char "]") Re.One].

(** [:as\s+(\S+)] *)
Definition as_pattern : Re.regex :=
  List.app (Re.lit ":as")
  [Re.Cls isspace Re.Plus; Re.Open; Re.Cls (fun c => negb (isspace c)) Re.Plus;
   Re.Close].

(** [\(def(?:n)?\s+([^\s\)]+)] *)
Definition def_pattern : Re.regex :=
  List.app (Re.lit "(def")
  [Re.Cls (is_char "n") Re.Opt; Re.Cls isspace Re.Plus; Re.Open;
   Re.Cls not_space_or_close Re.Plus; Re.Close].

(** [\^?[:\w]+\s+], the pattern of the [re.sub] without its anchor. *)
Definition metadata_pattern : Re.regex :=
  [Re.Cls (is_char "^") Re.Opt;
   Re.Cls (fun c => is_char ":" c || isalnum c || is_char "_" c) Re.Plus;
   Re.Cls isspace Re.Plus].

(** [\(declare\s+([^\)]+)\)] *)
Definition declare_pattern : Re.regex :=
  List.app (Re.lit "(declare")
  [Re.Cls isspace Re.Plus; Re.Open;
   Re.Cls (fun c => negb (is_char ")" c)) Re.Plus; Re.Close;
   Re.Cls (is_char ")") Re.One].

(** [([^\s\)]+)] *)
Definition symbol_pattern : Re.regex :=
  [Re.Open; Re.Cls not_space_or_close Re.Plus; Re.Close].

(** [[a-zA-Z_\-\.\?\!]] *)
Definition call_head (c : ascii) : bool :=
  islower_ascii c || isupper_ascii c || is_char "_" c || is_char "-" c
  || is_char "." c || is_char "?" c || is_char "!" c.

(** [[a-zA-Z0-9_\-\.\?\!]] *)
Definition call_tail (c : ascii) : bool :=
  islower_ascii c || isupper_ascii c || isdigit_ascii c || is_char "_" c
  || is_char "-" c || is_char "." c || is_char "?" c || is_char "!" c.

(** [\(( H+ T* )\s+] with [H = [a-zA-Z_\-\.\?\!]] and
    [T = [a-zA-Z0-9_\-\.\?\!]], written without the blanks. *)
Definition call_pattern : Re.regex :=
  [Re.Cls (is_char "(") Re.One; Re.Open; Re.Cls call_head Re.Plus;
   Re.Cls call_tail Re.Star; Re.Close; Re.Cls isspace Re.Plus].

(** ** The classifier *)

(** The list literal of the first test, entry by entry. *)
Definition allowlist : list string :=
  [
    "if"; "when"; "let"; "fn"; "def"; "defn"; "ns"; "require"; "import";
    "set!"; "do"; "cond"; "case"; "try"; "catch"; "finally"; "throw"; "->";
    "->>"; "doto"; "and"; "or"; "not"; "nil?"; "some?"; "if-let";
    "when-let"; "when-not"; "if-not"; "cond->"; "cond->>"; "some->";
    "some->>"; "as->"; "loop"; "recur"; "reify"; "proxy"; "extend";
    "extend-type"; "extend-protocol"; "deftype"; "defrecord"; "defprotocol";
    "definterface"; "gen-class"; "gen-interface"; "declare"; "quote"; "var";
    "deref"; "ref"; "atom"; "agent"; "future"; "delay"; "promise";
    "locking"; "monitor-enter"; "monitor-exit"; "time"; "with-local-vars";
    "binding"; "with-bindings"; "with-redefs"; "with-redefs-fn";
    "alter-var-root"; "swap!"; "reset!"; "compare-and-set!"; "commute";
    "ensure"; "dosync"; "io!"; "sync"; "ref-set"; "alter"; "commute";
    "ref-history-count"; "ref-max-history"; "ref-min-history";
    "ref-snapshots"; "ref-ensure"; "partial"; "comp"; "juxt"; "complement";
    "constantly"; "identity"; "constantly"; "fnil"; "every-pred"; "some-fn";
    "apply"; "map"; "mapv"; "mapcat"; "filter"; "filterv"; "remove"; "keep";
    "keep-indexed"; "distinct"; "distinct?"; "concat"; "cons"; "conj";
    "into"; "reduce"; "reductions"; "take"; "drop"; "take-while";
    "drop-while"; "split-at"; "split-with"; "partition"; "partition-all";
    "partition-by"; "interleave"; "interpose"; "cycle"; "repeat";
    "repeatedly"; "iterate"; "range"; "rest"; "next"; "fnext"; "nnext";
    "ffirst"; "nfirst"; "first"; "last"; "butlast"; "drop-last";
    "take-last"; "take-nth"; "nth"; "nthnext"; "nthrest"; "frequencies";
    "group-by"; "vals"; "keys"; "key"; "val"; "seq"; "vector"; "list";
    "hash-map"; "array-map"; "sorted-map"; "sorted-map-by"; "sorted-set";
    "sorted-set-by"; "hash-set"; "set"; "contains?"; "get"; "get-in";
    "assoc"; "assoc-in"; "dissoc"; "dissoc-in"; "update"; "update-in";
    "merge"; "merge-with"; "select-keys"; "zipmap"; "into-array";
    "to-array"; "into-array"; "alength"; "aget"; "aset"; "make-array";
    "vector-of"; "boolean-array"; "byte-array"; "char-array"; "short-array";
    "int-array"; "long-array"; "float-array"; "double-array";
    "object-array"; "str"; "string?"; "keyword"; "keyword?"; "symbol";
    "symbol?"; "name"; "namespace"; "ident?"; "simple-ident?";
    "qualified-ident?"; "qualified-keyword?"; "qualified-symbol?";
    "simple-keyword?"; "simple-symbol?"; "gensym"; "gensym"; "format";
    "printf"; "print"; "println"; "pr"; "prn"; "pr-str"; "prn-str";
    "print-str"; "println-str"; "with-out-str"; "with-in-str"; "read";
    "read-string"; "read-line"; "line-seq"; "slurp"; "spit"; "reader";
    "writer"; "input-stream"; "output-stream"; "file-seq"; "sh";
    "shutdown-agents"; "halt-when"; "halt-when!"; "error-handler";
    "error-mode"; "send"; "send-off"; "send-via"; "restart-agent"; "await";
    "await-for"; "await1"; "await-for1"; "agent-error"; "agent-errors";
    "set-error-handler!"; "set-error-mode!"; "error-handler"; "error-mode";
    "add-watch"; "remove-watch"; "notify-watches"; "add-watcher";
    "remove-watcher"; "notify-watchers"; "realized?"; "deref"; "deref";
    "deref"; "deref"; "realized?"; "realized?"; "realized?"; "realized?"  ].

(** [symbol in [...]] *)
Definition allowlisted (symbol : string) : bool := mem symbol allowlist.

(** ['.' in symbol and not any(symbol.startswith(ns + '.') for ns in
    result['namespaces'])] *)
Definition foreign_namespace (namespaces : gset string) (symbol : string) : bool :=
  contains "." symbol &&
  negb (existsb (fun ns => startswith (ns +:+ ".") symbol) (elements namespaces)).

(** [symbol[0].isupper() or '$' in symbol].  The symbol is group 1 of
    [call_pattern], which begins with a [+] class, so it has a first
    character (lemma [call_symbol_nonempty]) and the index cannot
    fail. *)
Definition java_like (symbol : string) : bool :=
  match symbol with
  | String c _ => isupper c
  | EmptyString => false
  end || contains "$" symbol.

(** The three [continue] tests of the call loop, in their order. *)
Definition excluded (namespaces : gset string) (symbol : string) : bool :=
  allowlisted symbol || foreign_namespace namespaces symbol || java_like symbol.

(** ** [parse_file] *)

Record parse_result := {
  definitions : gmap string Z;
  declares : gset string;
  calls : list (Z * string);
  namespaces : gset string
}.

Definition set_definitions (f : gmap string Z -> gmap string Z)
    (r : parse_result) : parse_result :=
  {| definitions := f (definitions r); declares := declares r;
     calls := calls r; namespaces := namespaces r |}.

Definition set_declares (f : gset string -> gset string)
    (r : parse_result) : parse_result :=
  {| definitions := definitions r; declares := f (declares r);
     calls := calls r; namespaces := namespaces r |}.

Definition set_calls (f : list (Z * string) -> list (Z * string))
    (r : parse_result) : parse_result :=
  {| definitions := definitions r; declares := declares r;
     calls := f (calls r); namespaces := namespaces r |}.

Definition set_namespaces (f : gset string -> gset string)
    (r : parse_result) : parse_result :=
  {| definitions := definitions r; declares := declares r;
     calls := calls r; namespaces := f (namespaces r) |}.

Definition empty_result : parse_result :=
  {| definitions := ∅; declares := ∅; calls := []; namespaces := ∅ |}.

(** The namespace name and its last dotted segment. *)
Definition scan_ns (content : string) (result : parse_result) : parse_result :=
  match Re.search ns_pattern content with
  | Some ns_match =>
      let ns_name := Re.group ns_match in
      set_namespaces (fun s => s ∪ {[ns_name]} ∪ {[last_segment ns_name]}) result
  | None => result
  end.

(** The aliases of every [:require [...]] vector. *)
Definition scan_requires (content : string) (result : parse_result) : parse_result :=
  foldl (fun result m =>
           foldl (fun result alias => set_namespaces (fun s => s ∪ {[alias]}) result)
             result (Re.findall as_pattern (Re.group m)))
    result (Re.finditer require_pattern content).

(** The symbol a line defines, after the metadata substitution and the
    test [symbol and not symbol.startswith('(')]. *)
Definition defined_symbol (stripped : string) : option string :=
  match Re.search def_pattern stripped with
  | Some def_match =>
      let symbol := Re.group def_match in
      let symbol := strip (Re.sub_at_start metadata_pattern symbol) in
      if negb (String.eqb symbol "") && negb (startswith "(" symbol)
      then Some symbol else None
  | None => None
  end.

(** The symbols of the first [(declare ...)] of a line. *)
Definition declared_symbols (stripped : string) : list string :=
  match Re.search declare_pattern stripped with
  | Some declare_match => Re.findall symbol_pattern (Re.group declare_match)
  | None => []
  end.

(** The heads of the call forms of a line, before classification. *)
Definition call_symbols (stripped : string) : list string :=
  map Re.group (Re.finditer call_pattern stripped).

(** [not stripped or stripped.startswith(';')] *)
Definition skipped (stripped : string) : bool :=
  String.eqb stripped "" || startswith ";" stripped.

(** [result['declares'].add(symbol)] *)
Definition add_declare (result : parse_result) (symbol : string) : parse_result :=
  set_declares (fun s => s ∪ {[symbol]}) result.

(** The body of the loop over the call matches of a line. *)
Definition add_call (line_num : Z) (result : parse_result) (symbol : string)
    : parse_result :=
  if excluded (namespaces result) symbol then result
  else set_calls (fun l => l ++ [(line_num, symbol)]) result.

(** The body of the line loop. *)
Definition scan_line (result : parse_result) (line_num : Z) (line : string)
    : parse_result :=
  let stripped := strip line in
  if skipped stripped then result
  else
    let result :=
      match defined_symbol stripped with
      | Some symbol => set_definitions (insert symbol line_num) result
      | None => result
      end in
    let result := foldl add_declare result (declared_symbols stripped) in
    foldl (add_call line_num) result (call_symbols stripped).

(** [for line_num, line in enumerate(lines, 1)] *)
Fixpoint scan_lines (result : parse_result) (line_num : Z) (lines : list string)
    : parse_result :=
  match lines with
  | [] => result
  | line :: lines' => scan_lines (scan_line result line_num line) (line_num + 1) lines'
  end.

(** [parse_file], from the text that [f.read()] returned. *)
Definition parse_file (content : string) : parse_result :=
  let lines := split "010" content in
  let result := scan_requires content (scan_ns content empty_result) in
  scan_lines result 1 lines.

(** ** The detector: [analyze_file] *)

(** An entry of [self.issues]: [(file, line, message)]. *)
Definition issue : Type := string * Z * string.

(** [f"函数 '{symbol}' 在第 {call_line} 行被调用，但在第 {def_line} 行才定义（缺少declare）"] *)
Definition forward_message (symbol : string) (call_line def_line : Z) : string :=
  "函数 '" +:+ symbol +:+ "' 在第 " +:+ pretty call_line
  +:+ " 行被调用，但在第 " +:+ pretty def_line +:+ " 行才定义（缺少declare）".

(** [f"分析文件时出错: {str(e)}"] *)
Definition error_message (description : string) : string :=
  "分析文件时出错: " +:+ description.

(** The body of the loop over [result['calls']]. *)
Definition check_call (file_path : string) (result : parse_result)
    (issues : list issue) (call : Z * string) : list issue :=
  let '(call_line, symbol) := call in
  if decide (symbol ∈ declares result) then issues
  else
    match definitions result !! symbol with
    | Some def_line =>
        if decide (def_line > call_line)
        then issues ++ [(file_path, call_line,
                         forward_message symbol call_line def_line)]
        else issues
    | None => issues
    end.

Definition check_calls (file_path : string) (result : parse_result)
    (issues : list issue) : list issue :=
  foldl (check_call file_path result) issues (calls result).

(** A [pathlib] path, by its parts. *)
Definition Path : Type := list string.

(** [str(path)] *)
Definition path_str (p : Path) : string :=
  match p with
  | [] => "."
  | "/" :: parts => "/" +:+ String.concat "/" parts
  | parts => String.concat "/" parts
  end.

(** What a call returns or raises; [description] is [str(e)]. *)
Inductive outcome (A : Type) :=
| Returned (a : A)
| Raised (description : string).
Arguments Returned {A} a.
Arguments Raised {A} description.

(** The file system as [parse_file] sees it: for each path, the text
    that [open] and [f.read()] give, or the exception they raise. *)
Definition filesystem : Type := Path -> outcome string.

(** [analyze_file]; the interpolations and appends of the [try] block
    raise nothing, so the handler runs only when the file could not be
    read, with [issues] as it was on entry. *)
Definition analyze_file (fs : filesystem) (issues : list issue)
    (file_path : Path) : list issue :=
  match fs file_path with
  | Returned content =>
      check_calls (path_str file_path) (parse_file content) issues
  | Raised description =>
      issues ++ [(path_str file_path, 0, error_message description)]
  end.

(** ** File discovery: [find_clj_files] *)

(** [s.endswith(p)] *)
Definition endswith (p s : string) : bool :=
  startswith (String.rev p) (String.rev s).

(** [path.name] *)
Definition path_name (p : Path) : string := List.last p "".

(** [root.rglob("*.clj")] over the paths beneath the root, given in the
    order in which the directory walk yields them: those whose name
    matches. *)
Definition rglob_clj (walk : list Path) : list Path :=
  filter (fun p => Is_true (endswith ".clj" (path_name p))) walk.

(** [sorted]: a stable sort that, like [list.sort], only asks [<]. *)
Section sorted.
Context {A : Type} (lt : A -> A -> bool).

Fixpoint insert_sorted (x : A) (l : list A) : list A :=
  match l with
  | [] => [x]
  | y :: l' => if lt y x then y :: insert_sorted x l' else x :: l
  end.

Definition sorted (l : list A) : list A := foldr insert_sorted [] l.
End sorted.

(** [a] may stand before [b] in a sorted list: [b < a] is false. *)
Definition not_after {A : Type} (lt : A -> A -> bool) (a b : A) : Prop :=
  lt b a = false.

(** [<] on strings. *)
Definition str_lt (a b : string) : bool := String.ltb a b.

(** [<] on paths: the part lists, compared as Python compares lists. *)
Fixpoint path_lt (p q : Path) : bool :=
  match p, q with
  | _, [] => false
  | [], _ :: _ => true
  | a :: p', b :: q' => if String.eqb a b then path_lt p' q' else str_lt a b
  end.

(** [<] on the pairs [(line_num, message)]. *)
Definition entry_lt (a b : Z * string) : bool :=
  if Z.eqb a.1 b.1 then str_lt a.2 b.2 else Z.ltb a.1 b.1.

Definition find_clj_files (walk : list Path) : list Path :=
  sorted path_lt
    (filter (fun path => Is_true (negb (contains "build" (path_str path))))
       (rglob_clj walk)).

(** ** [analyze_directory], [print_report] and [main] *)

(** [print(s)] *)
Definition print (s : string) : string := s +:+ nl.

(** [c * n] *)
Fixpoint replicate_char (n : nat) (c : ascii) : string :=
  match n with
  | O => ""
  | S n' => String c (replicate_char n' c)
  end.

(** [f"{n:4d}"] *)
Definition format_4d (n : Z) : string :=
  let digits := pretty n in
  replicate_char (4 - String.length digits) " " +:+ digits.

(** [analyze_directory]: the text printed and [self.issues] at the end. *)
Definition analyze_directory (fs : filesystem) (walk : list Path)
    (issues : list issue) : string * list issue :=
  let clj_files := find_clj_files walk in
  (print ("找到 " +:+ pretty (Z.of_nat (length clj_files))
          +:+ " 个Clojure文件，开始分析..." +:+ nl),
   foldl (analyze_file fs) issues clj_files).

(** [by_file[file_path].append(entry)] on a [defaultdict(list)], the
    keys in their order of insertion. *)
Fixpoint by_file_append (by_file : list (string * list (Z * string)))
    (file_path : string) (entry : Z * string) : list (string * list (Z * string)) :=
  match by_file with
  | [] => [(file_path, [entry])]
  | (key, entries) :: by_file' =>
      if String.eqb key file_path then (key, entries ++ [entry]) :: by_file'
      else (key, entries) :: by_file_append by_file' file_path entry
  end.

Definition group_by_file (issues : list issue) : list (string * list (Z * string)) :=
  foldl (fun by_file '(file_path, line_num, message) =>
           by_file_append by_file file_path (line_num, message))
    [] issues.

(** [by_file[file_path]] *)
Fixpoint by_file_get (by_file : list (string * list (Z * string)))
    (file_path : string) : list (Z * string) :=
  match by_file with
  | [] => []
  | (key, entries) :: by_file' =>
      if String.eqb key file_path then entries else by_file_get by_file' file_path
  end.

Definition print_entry (entry : Z * string) : string :=
  print ("  行 " +:+ format_4d entry.1 +:+ ": " +:+ entry.2).

(** The blocks of the report: the keys of [by_file] sorted, each with
    its entries sorted. *)
Definition report_blocks (issues : list issue) : list (string * list (Z * string)) :=
  let by_file := group_by_file issues in
  map (fun file_path => (file_path, sorted entry_lt (by_file_get by_file file_path)))
    (sorted str_lt (map fst by_file)).

Definition print_block (block : string * list (Z * string)) : string :=
  print (nl +:+ "文件: " +:+ block.1)
  +:+ print (replicate_char 80 "-")
  +:+ String.concat "" (map print_entry block.2).

(** [print_report]: the text printed. *)
Definition print_report (issues : list issue) : string :=
  match issues with
  | [] => print "[OK] 未发现声明顺序异常！"
  | _ :: _ =>
      print ("发现 " +:+ pretty (Z.of_nat (length issues)) +:+ " 个潜在问题：" +:+ nl)
      +:+ print (replicate_char 80 "=")
      +:+ String.concat "" (map print_block (report_blocks issues))
  end.

(** [main] where every [print] returns: the text printed and the status
    passed to [sys.exit].  [run] below is the process on a standard
    output that may refuse a text. *)
Definition main (root_dir : Path) (walk : list Path) (fs : filesystem)
    : string * Z :=
  let '(found, issues) := analyze_directory fs walk [] in
  (print ("分析目录: " +:+ path_str root_dir +:+ nl) +:+ found +:+ print_report issues,
   match issues with
   | _ :: _ => 1
   | [] => 0
   end).

(** ** What a line contributes

    The three effects of [scan_line], each as a function of the line. *)

(** A symbol the classifier lets through. *)
Definition tracked (ns : gset string) (symbol : string) : bool :=
  negb (excluded ns symbol).

(** The definitions after a line: the symbol it defines is bound to the
    line number, whatever was bound before. *)
Definition define_line (d : gmap string Z) (n : Z) (line : string) : gmap string Z :=
  if skipped (strip line) then d
  else match defined_symbol (strip line) with
       | Some symbol => <[symbol := n]> d
       | None => d
       end.

Definition declare_line (line : string) : list string :=
  if skipped (strip line) then [] else declared_symbols (strip line).

Definition call_line (ns : gset string) (line : string) : list string :=
  if skipped (strip line) then []
  else List.filter (tracked ns) (call_symbols (strip line)).

(** The three fields after all the lines from number [n] on. *)
Fixpoint define_lines (d : gmap string Z) (n : Z) (lines : list string)
    : gmap string Z :=
  match lines with
  | [] => d
  | line :: lines' => define_lines (define_line d n line) (n + 1) lines'
  end.

Fixpoint calls_of_lines (ns : gset string) (n : Z) (lines : list string)
    : list (Z * string) :=
  match lines with
  | [] => []
  | line :: lines' => map (pair n) (call_line ns line) ++ calls_of_lines ns (n + 1) lines'
  end.

(** The namespace prefixes of a file, set before the line loop. *)
Definition header_namespaces (content : string) : gset string :=
  namespaces (scan_requires content (scan_ns content empty_result)).

(** Line [n] of [lines], numbered from [k], is scanned and its
    definition form names [s]. *)
Definition defines_in (lines : list string) (k n : Z) (s : string) : Prop :=
  ∃ (i : nat) (line : string),
    lines !! i = Some line ∧ n = k + Z.of_nat i
    ∧ skipped (strip line) = false ∧ defined_symbol (strip line) = Some s.




(** ** Concrete files *)

Definition scenario : string :=
  "(defn main [] (helper))" +:+ nl +:+ nl +:+ "(defn helper [] 1)".

Definition scenario_with_argument : string :=
  "(defn main [] (helper 1))" +:+ nl +:+ nl +:+ "(defn helper [] 1)".


Definition redefinition : string := "(def x 1)" +:+ nl +:+ "(def x 2)".

Definition private_definition : string := "(defn ^:private foo [] 1)".

Definition allowlisted_call : string :=
  "(ns app.core)" +:+ nl +:+ "(defn render [x] (str (map inc x)))" +:+ nl
  +:+ "(defn str [x] x)".

(** A tree in which [src/bad.clj] cannot be opened and every other file
    reads as [scenario_with_argument]. *)
Definition unreadable_fs : filesystem :=
  fun path =>
    if decide (path = ["src"; "bad.clj"])
    then Raised "[Errno 13] Permission denied"
    else Returned scenario_with_argument.

(** ** Reading the issues *)

(** The number of lines of a text. *)
Definition line_count (content : string) : Z :=
  Z.of_nat (length (split "010" content)).

(** The call raised. *)
Definition raised {A : Type} (o : outcome A) : bool :=
  match o with
  | Raised _ => true
  | Returned _ => false
  end.

(** The file and the report entry of an issue. *)
Definition issue_file (i : issue) : string := i.1.1.
Definition issue_entry (i : issue) : Z * string := (i.1.2, i.2).

(** The issues that a block of the report stands for. *)
Definition block_issues (block : string * list (Z * string)) : list issue :=
  map (fun entry => (block.1, entry.1, entry.2)) block.2.

(** ** The process and its standard output *)

(** The texts that a run hands to [print], call by call. *)
Definition root_text (root_dir : Path) : string :=
  "分析目录: " +:+ path_str root_dir +:+ nl.

Definition found_text (clj_files : list Path) : string :=
  "找到 " +:+ pretty (Z.of_nat (length clj_files))
  +:+ " 个Clojure文件，开始分析..." +:+ nl.

Definition entry_text (entry : Z * string) : string :=
  "  行 " +:+ format_4d entry.1 +:+ ": " +:+ entry.2.

Definition block_texts (block : string * list (Z * string)) : list string :=
  (nl +:+ "文件: " +:+ block.1) :: replicate_char 80 "-" :: map entry_text block.2.

Definition report_texts (issues : list issue) : list string :=
  match issues with
  | [] => ["[OK] 未发现声明顺序异常！"]
  | _ :: _ =>
      ("发现 " +:+ pretty (Z.of_nat (length issues)) +:+ " 个潜在问题：" +:+ nl)
      :: replicate_char 80 "="
      :: concat (map block_texts (report_blocks issues))
  end.


(** [main()] as the process runs it, on a standard output that may
    refuse a text: [accepts s] tells whether [print(s)] returns.  When
    it does not, [print] raises (the stream cannot encode the text, or
    is closed); no handler of the script covers a [print], so the
    exception leaves [main] and the interpreter ends the process with
    status 1.  The result is [analyzer.issues] as far as the run got,
    and the exit status. *)
Definition run (accepts : string -> bool) (root_dir : Path) (walk : list Path)
    (fs : filesystem) : list issue * Z :=
  if negb (accepts (root_text root_dir)) then ([], 1)
  else
    let clj_files := find_clj_files walk in
    if negb (accepts (found_text clj_files)) then ([], 1)
    else
      let issues := foldl (analyze_file fs) [] clj_files in
      if forallb accepts (report_texts issues)
      then (issues, match issues with
                    | _ :: _ => 1
                    | [] => 0
                    end)
      else (issues, 1).


(** ** Files as bytes *)

(** The file system below the codec: for each path, the bytes that
    [open] and [f.read()] find, or the exception raised on the way. *)
Definition disk : Type := Path -> outcome (list Byte.byte).

(** The file is opened in text mode with [encoding='utf-8',
    errors='ignore']: the codec raises for no sequence of bytes, it
    leaves out what it cannot decode.  [decode] is what text mode makes
    of the bytes (the codec and the translation of newlines), library
    code taken as an argument. *)
Definition read_text (decode : list Byte.byte -> string) (d : disk) : filesystem :=
  fun path =>
    match d path with
    | Returned bytes => Returned (decode bytes)
    | Raised description => Raised description
    end.

(** ** More concrete files *)



(** A tree whose files all hold two bytes that are no UTF-8. *)
Definition undecodable_disk : disk :=
  fun _ => Returned [Byte.xff; Byte.xfe].

(** * Properties *)

(** ** What one line of the scan changes *)

Section scan_facts.
Implicit Types (r : parse_result) (l : list string) (n : Z).

Lemma foldl_add_declare r l :
  definitions (foldl add_declare r l) = definitions r
  ∧ declares (foldl add_declare r l) = declares r ∪ list_to_set l
  ∧ calls (foldl add_declare r l) = calls r
  ∧ namespaces (foldl add_declare r l) = namespaces r.
Proof.
  revert r; induction l as [|s l IH]; intros r; simpl.
  - repeat split. by rewrite (right_id_L ∅ (∪)).
  - destruct (IH (add_declare r s)) as (Hd & Hs & Hc & Hn).
    rewrite Hd, Hs, Hc, Hn; simpl. repeat split.
    by rewrite (assoc_L (∪)).
Qed.

Lemma foldl_add_call n r l :
  definitions (foldl (add_call n) r l) = definitions r
  ∧ declares (foldl (add_call n) r l) = declares r
  ∧ calls (foldl (add_call n) r l)
    = calls r ++ map (pair n) (List.filter (tracked (namespaces r)) l)
  ∧ namespaces (foldl (add_call n) r l) = namespaces r.
Proof.
  revert r; induction l as [|s l IH]; intros r; simpl.
  - rewrite app_nil_r; done.
  - destruct (IH (add_call n r s)) as (Hd & Hs & Hc & Hn).
    rewrite Hd, Hs, Hc, Hn. unfold add_call, tracked.
    destruct (excluded (namespaces r) s) eqn:E; simpl; [done|].
    by rewrite <- app_assoc.
Qed.

Lemma scan_line_fields r n line :
  definitions (scan_line r n line) = define_line (definitions r) n line
  ∧ declares (scan_line r n line) = declares r ∪ list_to_set (declare_line line)
  ∧ calls (scan_line r n line)
    = calls r ++ map (pair n) (call_line (namespaces r) line)
  ∧ namespaces (scan_line r n line) = namespaces r.
Proof.
  unfold scan_line, define_line, declare_line, call_line.
  destruct (skipped (strip line)).
  { rewrite app_nil_r. repeat split. simpl. by rewrite (right_id_L ∅ (∪)). }
  set (r1 := match defined_symbol (strip line) with
             | Some symbol => set_definitions (insert symbol n) r
             | None => r
             end).
  assert (H1 : definitions r1
               = match defined_symbol (strip line) with
                 | Some symbol => <[symbol := n]> (definitions r)
                 | None => definitions r
                 end
               ∧ declares r1 = declares r ∧ calls r1 = calls r
               ∧ namespaces r1 = namespaces r).
  { subst r1. destruct (defined_symbol (strip line)); done. }
  destruct H1 as (Hd1 & Hs1 & Hc1 & Hn1).
  destruct (foldl_add_declare r1 (declared_symbols (strip line)))
    as (Hd2 & Hs2 & Hc2 & Hn2).
  destruct (foldl_add_call n (foldl add_declare r1 (declared_symbols (strip line)))
              (call_symbols (strip line))) as (Hd3 & Hs3 & Hc3 & Hn3).
  rewrite Hd3, Hs3, Hc3, Hn3, Hd2, Hs2, Hc2, Hn2, Hd1, Hs1, Hc1, Hn1. done.
Qed.

(** The line loop, one more line at the end. *)
Lemma scan_lines_snoc r n lines line :
  scan_lines r n (lines ++ [line])
  = scan_line (scan_lines r n lines) (n + Z.of_nat (length lines)) line.
Proof.
  revert r n; induction lines as [|x lines IH]; intros r n; simpl.
  - f_equal. lia.
  - rewrite IH. f_equal. lia.
Qed.

Lemma scan_lines_namespaces r n lines :
  namespaces (scan_lines r n lines) = namespaces r.
Proof.
  revert r n; induction lines as [|x lines IH]; intros r n; simpl; [done|].
  rewrite IH. apply scan_line_fields.
Qed.
End scan_facts.

(** ** The whole scan, field by field *)

Section whole_scan.
Implicit Types (r : parse_result) (n : Z) (lines : list string).

Lemma scan_lines_definitions r n lines :
  definitions (scan_lines r n lines) = define_lines (definitions r) n lines.
Proof.
  revert r n; induction lines as [|x lines IH]; intros r n; simpl; [done|].
  rewrite IH. f_equal. apply scan_line_fields.
Qed.

Lemma scan_lines_declares r n lines :
  declares (scan_lines r n lines)
  = declares r ∪ list_to_set (concat (map declare_line lines)).
Proof.
  revert r n; induction lines as [|x lines IH]; intros r n; simpl.
  - by rewrite (right_id_L ∅ (∪)).
  - rewrite IH. destruct (scan_line_fields r n x) as (_ & -> & _).
    rewrite list_to_set_app_L. by rewrite (assoc_L (∪)).
Qed.

Lemma scan_lines_calls r n lines :
  calls (scan_lines r n lines)
  = calls r ++ calls_of_lines (namespaces r) n lines.
Proof.
  revert r n; induction lines as [|x lines IH]; intros r n; simpl.
  - by rewrite app_nil_r.
  - rewrite IH. destruct (scan_line_fields r n x) as (_ & _ & -> & ->).
    by rewrite <- app_assoc.
Qed.

(** Reading the namespace form and the requires touches only
    [namespaces]. *)
Lemma foldl_alias r (aliases : list string) :
  let r' := foldl (fun result alias =>
                     set_namespaces (fun s => s ∪ {[alias]}) result) r aliases in
  definitions r' = definitions r ∧ declares r' = declares r ∧ calls r' = calls r.
Proof.
  revert r; induction aliases as [|a l IH]; intros r; simpl; [done|].
  apply (IH (set_namespaces _ r)).
Qed.

Lemma scan_requires_fields content r :
  definitions (scan_requires content r) = definitions r
  ∧ declares (scan_requires content r) = declares r
  ∧ calls (scan_requires content r) = calls r.
Proof.
  unfold scan_requires. generalize (Re.finditer require_pattern content).
  intros ms; revert r; induction ms as [|m ms IH]; intros r; simpl; [done|].
  destruct (IH (foldl (fun result alias =>
                     set_namespaces (fun s => s ∪ {[alias]}) result) r
                  (Re.findall as_pattern (Re.group m)))) as (-> & -> & ->).
  apply foldl_alias.
Qed.

Lemma scan_ns_fields content r :
  definitions (scan_ns content r) = definitions r
  ∧ declares (scan_ns content r) = declares r
  ∧ calls (scan_ns content r) = calls r.
Proof. unfold scan_ns. by destruct (Re.search ns_pattern content). Qed.

(** The namespace prefixes that [parse_file] works with. *)
Lemma parse_file_namespaces content :
  namespaces (parse_file content) = header_namespaces content.
Proof. unfold parse_file. by rewrite scan_lines_namespaces. Qed.

Lemma parse_file_definitions content :
  definitions (parse_file content) = define_lines ∅ 1 (split "010" content).
Proof.
  unfold parse_file. rewrite scan_lines_definitions.
  destruct (scan_requires_fields content (scan_ns content empty_result)) as (-> & _).
  by destruct (scan_ns_fields content empty_result) as (-> & _).
Qed.

Lemma parse_file_declares content :
  declares (parse_file content)
  = list_to_set (concat (map declare_line (split "010" content))).
Proof.
  unfold parse_file. rewrite scan_lines_declares.
  destruct (scan_requires_fields content (scan_ns content empty_result)) as (_ & -> & _).
  destruct (scan_ns_fields content empty_result) as (_ & -> & _).
  simpl. by rewrite (left_id_L ∅ (∪)).
Qed.

Lemma parse_file_calls content :
  calls (parse_file content)
  = calls_of_lines (header_namespaces content) 1 (split "010" content).
Proof.
  unfold parse_file. rewrite scan_lines_calls.
  destruct (scan_requires_fields content (scan_ns content empty_result)) as (_ & _ & ->).
  by destruct (scan_ns_fields content empty_result) as (_ & _ & ->).
Qed.
End whole_scan.

(** ** The detector, call by call *)

Section detector.
Context (file : string) (r : parse_result).

Lemma check_call_app issues call :
  check_call file r issues call = issues ++ check_call file r [] call.
Proof.
  unfold check_call. destruct call as [L s].
  destruct (decide (s ∈ declares r)); [by rewrite app_nil_r|].
  destruct (definitions r !! s) as [D|]; [|by rewrite app_nil_r].
  destruct (decide (D > L)); [done|by rewrite app_nil_r].
Qed.

Lemma foldl_check_call issues cs :
  foldl (check_call file r) issues cs
  = issues ++ concat (map (check_call file r []) cs).
Proof.
  revert issues; induction cs as [|c cs IH]; intros issues; simpl.
  - by rewrite app_nil_r.
  - rewrite IH, check_call_app, <- app_assoc. done.
Qed.

Lemma check_call_declared issues L s :
  s ∈ declares r → check_call file r issues (L, s) = issues.
Proof. intros H. unfold check_call. by destruct (decide (s ∈ declares r)). Qed.

Lemma check_call_undefined issues L s :
  definitions r !! s = None → check_call file r issues (L, s) = issues.
Proof.
  intros H. unfold check_call. rewrite H.
  by destruct (decide (s ∈ declares r)).
Qed.

Lemma check_call_forward L s D :
  definitions r !! s = Some D → s ∉ declares r → D > L →
  check_call file r [] (L, s) = [(file, L, forward_message s L D)].
Proof.
  intros HD Hs HL. unfold check_call. rewrite HD.
  destruct (decide (s ∈ declares r)); [done|].
  destruct (decide (D > L)); [done|lia].
Qed.

Lemma check_call_cases L s :
  (∃ D, definitions r !! s = Some D ∧ (s ∉ declares r) ∧ D > L
        ∧ check_call file r [] (L, s) = [(file, L, forward_message s L D)])
  ∨ (¬ (∃ D, definitions r !! s = Some D ∧ (s ∉ declares r) ∧ D > L)
     ∧ check_call file r [] (L, s) = []).
Proof.
  destruct (decide (s ∈ declares r)) as [Hs|Hs].
  { right. split; [|by apply check_call_declared].
    intros (D & _ & H & _). done. }
  destruct (definitions r !! s) as [D|] eqn:HD.
  2:{ right. split; [|by apply check_call_undefined].
      intros (D & H & _). done. }
  destruct (decide (D > L)) as [HL|HL].
  - left. exists D. repeat split; try done. by apply check_call_forward.
  - right. split.
    + intros (D' & H & _ & H'). congruence.
    + unfold check_call. rewrite HD.
      destruct (decide (s ∈ declares r)); [done|].
      destruct (decide (D > L)); done.
Qed.
End detector.

(** ** Which lines define and declare a symbol *)

Section definition_lines.
Implicit Types (d : gmap string Z) (k n : Z) (lines : list string).

Lemma define_lines_snoc d k lines line :
  define_lines d k (lines ++ [line])
  = define_line (define_lines d k lines) (k + Z.of_nat (length lines)) line.
Proof.
  revert d k; induction lines as [|x lines IH]; intros d k; simpl.
  - f_equal. lia.
  - rewrite IH. f_equal. lia.
Qed.

Lemma defines_in_lt lines k n s :
  defines_in lines k n s → k ≤ n < k + Z.of_nat (length lines).
Proof.
  intros (i & line & Hi & -> & _). apply lookup_lt_Some in Hi. lia.
Qed.

Lemma defines_in_snoc lines line k n s :
  defines_in (lines ++ [line]) k n s ↔
  defines_in lines k n s
  ∨ (n = k + Z.of_nat (length lines) ∧ skipped (strip line) = false
     ∧ defined_symbol (strip line) = Some s).
Proof.
  split.
  - intros (i & l & Hi & -> & Hs & Hd).
    destruct (decide (i < length lines)%nat) as [Hlt|Hge].
    + left. exists i, l. by rewrite lookup_app_l in Hi.
    + right. rewrite lookup_app_r in Hi by lia.
      destruct (i - length lines)%nat as [|j] eqn:E; simpl in Hi; [|done].
      injection Hi as ->. repeat split; try done. f_equal. lia.
  - intros [(i & l & Hi & -> & Hs & Hd)|(-> & Hs & Hd)].
    + exists i, l. repeat split; try done.
      rewrite lookup_app_l; [done|]. by eapply lookup_lt_Some.
    + exists (length lines), line. repeat split; try done.
      rewrite lookup_app_r by lia. by rewrite Nat.sub_diag.
Qed.

(** The binding of [s] after the scan is the number of the last line
    that defines [s]. *)
Lemma define_lines_last k lines s n :
  define_lines ∅ k lines !! s = Some n ↔
  defines_in lines k n s ∧ ∀ m, defines_in lines k m s → m ≤ n.
Proof.
  revert n; induction lines as [|line lines IH] using rev_ind; intros n.
  - simpl. rewrite lookup_empty. split; [done|].
    intros [(i & l & Hi & _) _]. done.
  - rewrite define_lines_snoc. unfold define_line.
    setoid_rewrite defines_in_snoc.
    set (last := k + Z.of_nat (length lines)).
    assert (Hold : ∀ m, defines_in lines k m s → m < last).
    { intros m Hm. apply defines_in_lt in Hm. unfold last; lia. }
    destruct (skipped (strip line)) eqn:Hs.
    { rewrite IH. split.
      - intros [H1 H2]. split; [by left|]. intros m [Hm|(_ & ? & _)]; [auto|done].
      - intros [[H1|(_ & ? & _)] H2]; [|done]. split; [done|]. intros m Hm.
        apply H2. by left. }
    destruct (defined_symbol (strip line)) as [s'|] eqn:Hd.
    2:{ rewrite IH. split.
      - intros [H1 H2]. split; [by left|]. intros m [Hm|(_ & _ & ?)]; [auto|done].
      - intros [[H1|(_ & _ & ?)] H2]; [|done]. split; [done|]. intros m Hm.
        apply H2. by left. }
    destruct (decide (s' = s)) as [->|Hne].
    + rewrite lookup_insert_eq. split.
      * intros [= <-]. split; [by right|].
        intros m [Hm|(-> & _)]; [apply Hold in Hm; lia|lia].
      * intros [[H1|(-> & _)] H2]; [|done].
        apply Hold in H1. specialize (H2 last). 
        assert (last ≤ n) by (apply H2; by right). lia.
    + rewrite lookup_insert_ne by done. rewrite IH. split.
      * intros [H1 H2]. split; [by left|].
        intros m [Hm|(_ & _ & ?)]; [auto|congruence].
      * intros [[H1|(_ & _ & ?)] H2]; [|congruence]. split; [done|].
        intros m Hm. apply H2. by left.
Qed.
End definition_lines.

Lemma elem_of_concat_map {A B} (f : A → list B) (l : list A) (y : B) :
  y ∈ concat (map f l) ↔ ∃ x, x ∈ l ∧ y ∈ f x.
Proof.
  induction l as [|a l IH]; simpl.
  - split; [by intros ?%elem_of_nil|by intros (? & ?%elem_of_nil & _)].
  - rewrite elem_of_app, IH. split.
    + intros [H|(x & H1 & H2)]; [exists a|exists x]; split; try done;
        [apply list_elem_of_here|by apply list_elem_of_further].
    + intros (x & [->|H1]%elem_of_cons & H2); [by left|right; eauto].
Qed.


(** ** Which calls are recorded *)

Lemma calls_of_lines_elem ns n lines L s :
  (L, s) ∈ calls_of_lines ns n lines ↔
  ∃ (i : nat) (line : string),
    lines !! i = Some line ∧ L = n + Z.of_nat i ∧ skipped (strip line) = false
    ∧ s ∈ call_symbols (strip line) ∧ excluded ns s = false.
Proof.
  revert n; induction lines as [|x lines IH]; intros n; simpl.
  - split; [by intros ?%elem_of_nil|by intros (i & ? & ? & _)].
  - rewrite elem_of_app, IH, list_elem_of_fmap. split.
    + intros [(s' & [= -> ->] & Hin)|(i & line & Hi & -> & Hrest)].
      * exists 0%nat, x. unfold call_line in Hin.
        destruct (skipped (strip x)); [by apply elem_of_nil in Hin|].
        apply list_elem_of_In, filter_In in Hin as [Hin Ht].
        apply list_elem_of_In in Hin. unfold tracked in Ht.
        apply negb_true_iff in Ht. repeat split; try done. lia.
      * exists (S i), line. repeat split; try apply Hrest; try done. lia.
    + intros ([|i] & line & Hi & -> & Hs & Hin & He); simpl in Hi.
      * injection Hi as ->. left. exists s. split; [f_equal; lia|].
        unfold call_line. rewrite Hs.
        apply list_elem_of_In, filter_In. split; [by apply list_elem_of_In|].
        unfold tracked. by rewrite He.
      * right. exists i, line. repeat split; try done. lia.
Qed.

Lemma existsb_elements (f : string → bool) (X : gset string) :
  existsb f (elements X) = true ↔ ∃ x, x ∈ X ∧ f x = true.
Proof.
  rewrite existsb_exists. split; intros (x & H1 & H2); exists x; split; try done.
  - by apply elem_of_elements, list_elem_of_In.
  - by apply list_elem_of_In, elem_of_elements.
Qed.

(** The three exclusion rules, in words. *)
Lemma excluded_rules ns s :
  excluded ns s = true ↔
  allowlisted s = true
  ∨ (contains "." s = true ∧ ∀ p, p ∈ ns → startswith (p +:+ ".") s = false)
  ∨ ((∃ c t, s = String c t ∧ isupper c = true) ∨ contains "$" s = true).
Proof.
  unfold excluded, foreign_namespace, java_like.
  rewrite !orb_true_iff, andb_true_iff, negb_true_iff.
  rewrite <- not_true_iff_false, existsb_elements.
  split.
  - intros [[H|[H1 H2]]|[H|H]]; [by left| |right; right; left|by right; right; right].
    + right; left. split; [done|]. intros p Hp.
      apply not_true_iff_false. intros E. apply H2. eauto.
    + destruct s as [|c t]; [done|]. eauto.
  - intros [H|[[H1 H2]|[(c & t & -> & H)|H]]].
    + by left; left.
    + left; right. split; [done|]. intros (p & Hp & E). rewrite H2 in E; done.
    + by right; left.
    + by right; right.
Qed.

(** ** Sorting *)

Section sorted_facts.
Context {A : Type} (lt : A → A → bool).

Lemma insert_sorted_perm x l : insert_sorted lt x l ≡ₚ x :: l.
Proof.
  induction l as [|y l IH]; simpl; [done|].
  destruct (lt y x); [|done]. rewrite IH. apply perm_swap.
Qed.

Lemma sorted_perm l : sorted lt l ≡ₚ l.
Proof.
  induction l as [|x l IH]; simpl; [done|].
  rewrite insert_sorted_perm. by rewrite IH.
Qed.

Lemma elem_of_sorted x l : x ∈ sorted lt l ↔ x ∈ l.
Proof. by rewrite sorted_perm. Qed.

Hypothesis lt_asym : ∀ a b, lt a b = true → lt b a = false.

Lemma insert_sorted_Sorted x l :
  Sorted (not_after lt) l → Sorted (not_after lt) (insert_sorted lt x l).
Proof.
  induction l as [|y l IH]; simpl; intros Hl.
  - by repeat constructor.
  - destruct (lt y x) eqn:E.
    + apply Sorted_inv in Hl as [Hl Hhd]. constructor; [by apply IH|].
      destruct l as [|z l]; simpl.
      * constructor. by apply lt_asym.
      * destruct (lt z x); constructor; [by inversion Hhd|by apply lt_asym].
    + constructor; [done|]. by constructor.
Qed.

Lemma sorted_Sorted l : Sorted (not_after lt) (sorted lt l).
Proof.
  induction l as [|x l IH]; simpl; [constructor|].
  by apply insert_sorted_Sorted.
Qed.

(** With a total order the result depends on the elements only, not
    on the order in which they arrive. *)
Lemma sorted_unique `{!Transitive (not_after lt), !AntiSymm (=) (not_after lt)}
    l1 l2 :
  l1 ≡ₚ l2 → sorted lt l1 = sorted lt l2.
Proof.
  intros Hp. apply (Sorted_unique (not_after lt)); try apply sorted_Sorted.
  by rewrite !sorted_perm.
Qed.
End sorted_facts.

(** The order of strings. *)
Section string_order.
Lemma str_lt_le a b : str_lt a b = false ↔ String.le b a.
Proof.
  unfold str_lt, String.le, String.ltb, String.leb.
  rewrite (String.compare_antisym a b).
  destruct (b ?= a)%string; simpl; split; done.
Qed.

Lemma str_lt_irrefl a : str_lt a a = false.
Proof. by apply str_lt_le. Qed.

Lemma str_lt_asym a b : str_lt a b = true → str_lt b a = false.
Proof.
  intros H. apply str_lt_le. destruct (total String.le a b) as [|Hba]; [done|].
  apply str_lt_le in Hba. congruence.
Qed.

Lemma str_lt_total a b : str_lt a b = false → str_lt b a = false → a = b.
Proof. intros H1%str_lt_le H2%str_lt_le. by apply (anti_symm String.le). Qed.

Lemma str_lt_trans a b c : str_lt a b = true → str_lt b c = true → str_lt a c = true.
Proof.
  intros H1 H2. apply not_false_iff_true. intros H3%str_lt_le.
  apply str_lt_asym, str_lt_le in H1. apply str_lt_asym in H2 as H2'.
  apply str_lt_le in H2'.
  assert (String.le c b) as Hcb by (by etrans).
  assert (b = c) as -> by (by apply (anti_symm String.le)).
  by rewrite str_lt_irrefl in H2.
Qed.

Global Instance str_not_after_trans : Transitive (not_after str_lt).
Proof.
  intros a b c. unfold not_after. rewrite !str_lt_le. intros; by etrans.
Qed.

Global Instance str_not_after_antisym : AntiSymm (=) (not_after str_lt).
Proof. intros a b H1 H2. by apply str_lt_total. Qed.
End string_order.

(** The order of paths. *)
Section path_order.
Lemma path_lt_asym p q : path_lt p q = true → path_lt q p = false.
Proof.
  revert q; induction p as [|a p IH]; intros [|b q]; simpl; try done.
  rewrite (String.eqb_sym b a).
  destruct (String.eqb a b); [apply IH|apply str_lt_asym].
Qed.

Lemma path_lt_total p q : path_lt p q = false → path_lt q p = false → p = q.
Proof.
  revert q; induction p as [|a p IH]; intros [|b q]; simpl; try done.
  rewrite (String.eqb_sym b a).
  destruct (String.eqb_spec a b) as [->|Hne].
  - intros H1 H2. f_equal. by apply IH.
  - intros H1 H2. destruct Hne. by apply str_lt_total.
Qed.

Lemma path_lt_between p q r :
  path_lt r p = true → path_lt q p = true ∨ path_lt r q = true.
Proof.
  revert p q; induction r as [|a r IH]; intros [|b p] [|c q]; simpl;
    try done; try (by left); try (by right).
  destruct (String.eqb_spec a b) as [->|Hab].
  - intros H. destruct (String.eqb_spec c b) as [->|Hcb].
    + rewrite String.eqb_refl. by apply IH.
    + destruct (String.eqb_spec b c) as [->|_]; [done|].
      destruct (str_lt c b) eqn:E1; [by left|right].
      destruct (str_lt b c) eqn:E2; [done|].
      destruct Hcb. by apply str_lt_total.
  - intros H. destruct (String.eqb_spec c b) as [->|Hcb].
    + right. destruct (String.eqb_spec a b); done.
    + destruct (String.eqb_spec a c) as [->|Hac]; [by left|].
      destruct (str_lt c b) eqn:E1; [by left|right].
      destruct (str_lt a c) eqn:E2; [done|].
      assert (str_lt c a = true) as Hca.
      { apply not_false_iff_true. intros E3. destruct Hac. by apply str_lt_total. }
      rewrite (str_lt_trans c a b) in E1; done.
Qed.

Global Instance path_not_after_trans : Transitive (not_after path_lt).
Proof.
  intros p q r. unfold not_after. intros H1 H2.
  apply not_true_iff_false. intros H3.
  destruct (path_lt_between p q r H3); congruence.
Qed.

Global Instance path_not_after_antisym : AntiSymm (=) (not_after path_lt).
Proof. intros p q H1 H2. by apply path_lt_total. Qed.
End path_order.

(** The order of report entries. *)
Lemma entry_lt_asym a b : entry_lt a b = true → entry_lt b a = false.
Proof.
  unfold entry_lt. rewrite (Z.eqb_sym b.1 a.1).
  destruct (Z.eqb_spec a.1 b.1); [apply str_lt_asym|]. lia.
Qed.

(** ** The matcher *)

Section matcher.
Import Re.

Lemma append_String a s t : String a s +:+ t = String a (s +:+ t).
Proof. done. Qed.

Lemma append_empty_l t : "" +:+ t = t.
Proof. done. Qed.

Lemma append_assoc s t u : (s +:+ t) +:+ u = s +:+ (t +:+ u).
Proof. induction s as [|a s IH]; [done|]. by rewrite !append_String, IH. Qed.

Lemma length_append s t :
  String.length (s +:+ t) = (String.length s + String.length t)%nat.
Proof. induction s as [|a s IH]; [done|]. rewrite append_String; simpl; lia. Qed.

Lemma substring_append s t :
  substring 0 (String.length s) (s +:+ t) = s.
Proof.
  induction s as [|a s IH].
  - by destruct t.
  - rewrite append_String. simpl. by rewrite IH.
Qed.

Lemma group_prefix s t :
  substring 0 (String.length (s +:+ t) - String.length t) (s +:+ t) = s.
Proof.
  rewrite length_append.
  replace (_ + _ - _)%nat with (String.length s) by lia.
  apply substring_append.
Qed.

Lemma all_chars_append c s t :
  all_chars c (s +:+ t) = all_chars c s && all_chars c t.
Proof.
  induction s as [|a s IH]; [done|].
  rewrite append_String; simpl. by rewrite IH, andb_assoc.
Qed.

(** What [greedy] hands to its continuation is the subject less a run
    of the class. *)
Lemma greedy_inv {A} c s (k : string → option A) x :
  greedy c s k = Some x →
  ∃ run s', s = run +:+ s' ∧ all_chars c run = true ∧ k s' = Some x.
Proof.
  induction s as [|a s IH]; simpl; intros H.
  - by exists "", "".
  - destruct (c a) eqn:Ea; [|by exists "", (String a s)].
    destruct (greedy c s k) as [y|] eqn:Eg.
    + injection H as ->. destruct (IH eq_refl) as (run & s' & -> & Hr & Hk).
      exists (String a run), s'. simpl. by rewrite Ea, Hr.
    + by exists "", (String a s).
Qed.

(** A match of [r1 ++ r2] ends with a match of [r2] on a suffix. *)
Lemma exec_app r1 r2 s o c m :
  exec (r1 ++ r2) s o c = Some m →
  ∃ pre s' o' c', s = pre +:+ s' ∧ exec r2 s' o' c' = Some m.
Proof.
  revert s o c; induction r1 as [|[cl [| | |]| |] r1 IH]; intros s o c; simpl.
  - intros H. by exists "", s, o, c.
  - destruct s as [|a s]; [done|]. destruct (cl a); [|done].
    intros (pre & s' & o' & c' & -> & H)%IH. by exists (String a pre), s', o', c'.
  - assert (Hskip : exec (r1 ++ r2) s o c = Some m →
              ∃ pre s' o' c', s = pre +:+ s' ∧ exec r2 s' o' c' = Some m)
      by apply IH.
    destruct s as [|a s]; [done|]. destruct (cl a); [|done].
    destruct (exec (r1 ++ r2) s o c) as [y|] eqn:E; [|done].
    intros [= ->]. apply IH in E as (pre & s' & o' & c' & -> & H).
    by exists (String a pre), s', o', c'.
  - intros (run & s1 & -> & _ & (pre & s' & o' & c' & -> & H)%IH)%greedy_inv.
    exists (run +:+ pre), s', o', c'. by rewrite append_assoc.
  - destruct s as [|a s]; [done|]. destruct (cl a); [|done].
    intros (run & s1 & -> & _ & (pre & s' & o' & c' & -> & H)%IH)%greedy_inv.
    exists (String a (run +:+ pre)), s', o', c'.
    by rewrite append_String, append_assoc.
  - intros (pre & s' & o' & c' & -> & H)%IH. by exists pre, s', o', c'.
  - intros (pre & s' & o' & c' & -> & H)%IH. by exists pre, s', o', c'.
Qed.

(** Items after the group leave its bounds as they are. *)
Lemma exec_keeps_group r s o c m :
  no_group r = true → exec r s o c = Some m →
  group_open m = o ∧ group_close m = c.
Proof.
  revert s; induction r as [|[cl [| | |]| |] r IH]; intros s; simpl; try done.
  - by intros _ [= <-].
  - intros Hr. destruct s as [|a s]; [done|]. destruct (cl a); [|done]. by apply IH.
  - intros Hr. destruct s as [|a s]; [by apply IH|]. destruct (cl a); [|by apply IH].
    destruct (exec r s o c) as [y|] eqn:E; [|by apply IH].
    intros [= <-]. by eapply IH.
  - intros Hr (run & s1 & -> & _ & H)%greedy_inv. by eapply IH.
  - intros Hr. destruct s as [|a s]; [done|]. destruct (cl a); [|done].
    intros (run & s1 & -> & _ & H)%greedy_inv. by eapply IH.
Qed.

(** The group of [( cl+ )] followed by group-free items: a non-empty
    run of the class. *)
Lemma exec_group_plus cl r s o c m :
  no_group r = true →
  exec (Open :: Cls cl Plus :: Close :: r) s o c = Some m →
  ∃ a run, group m = String a run ∧ all_chars cl (String a run) = true.
Proof.
  intros Hr. simpl. destruct s as [|a s]; [done|]. destruct (cl a) eqn:Ea; [|done].
  intros (run & s1 & -> & Hrun & H)%greedy_inv.
  apply exec_keeps_group in H as [Ho Hc]; [|done].
  exists a, run. unfold group. rewrite Ho, Hc.
  rewrite <- append_String, group_prefix. simpl. by rewrite Ea, Hrun.
Qed.

Lemma search_inv r s m :
  search r s = Some m → ∃ pre s', s = pre +:+ s' ∧ match_ r s' = Some m.
Proof.
  induction s as [|a s IH]; simpl.
  - destruct (match_ r "") eqn:E; [|done]. intros [= <-]. by exists "", "".
  - destruct (match_ r (String a s)) eqn:E.
    + intros [= <-]. by exists "", (String a s).
    + intros (pre & s' & -> & H)%IH. by exists (String a pre), s'.
Qed.

Lemma finditer_inv r s m :
  m ∈ finditer r s → ∃ pre s', s = pre +:+ s' ∧ match_ r s' = Some m.
Proof.
  unfold finditer. generalize 0%nat.
  induction s as [|a s IH]; intros k; simpl.
  - destruct k; [|by intros ?%elem_of_nil].
    destruct (match_ r "") eqn:E; [|by intros ?%elem_of_nil].
    intros [->|?%elem_of_nil]%elem_of_cons; [|done]. by exists "", "".
  - destruct k.
    + destruct (match_ r (String a s)) eqn:E.
      * intros [->|(pre & s' & -> & H)%IH]%elem_of_cons.
        -- by exists "", (String a s).
        -- by exists (String a pre), s'.
      * intros (pre & s' & -> & H)%IH. by exists (String a pre), s'.
    + intros (pre & s' & -> & H)%IH. by exists (String a pre), s'.
Qed.
End matcher.

(** ** What the patterns capture *)

Section captures.
Import Re.

(** The token after [(def] or [(defn]: non-empty, free of blanks. *)
Lemma def_pattern_group stripped m :
  search def_pattern stripped = Some m →
  ∃ a run, group m = String a run
           ∧ all_chars not_space_or_close (String a run) = true.
Proof.
  intros (pre & s & -> & H)%search_inv. unfold match_ in H.
  change def_pattern
    with ((lit "(def" ++ [Cls (is_char "n") Opt; Cls isspace Plus])
          ++ [Open; Cls not_space_or_close Plus; Close]) in H.
  apply exec_app in H as (pre' & s' & o' & c' & -> & H).
  by apply exec_group_plus in H.
Qed.

Lemma all_chars_impl (c d : ascii → bool) s :
  (∀ a, c a = true → d a = true) → all_chars c s = true → all_chars d s = true.
Proof.
  intros Hcd. induction s as [|a s IH]; simpl; [done|].
  intros [Ha Hs]%andb_true_iff. rewrite (Hcd a Ha). by apply IH.
Qed.

(** The metadata pattern ends in [\s+]: it needs a blank. *)
Lemma metadata_pattern_needs_space g :
  all_chars (fun c => negb (isspace c)) g = true →
  match_ metadata_pattern g = None.
Proof.
  intros Hg. destruct (match_ metadata_pattern g) as [m|] eqn:E; [|done].
  unfold match_ in E.
  change metadata_pattern
    with ([Cls (is_char "^") Opt;
           Cls (fun c => is_char ":" c || isalnum c || is_char "_" c) Plus]
          ++ [Cls isspace Plus]) in E.
  apply exec_app in E as (pre & s & o & c & -> & H).
  rewrite all_chars_append in Hg. apply andb_true_iff in Hg as [_ Hs].
  simpl in H. destruct s as [|a s]; [done|]. simpl in Hs.
  destruct (isspace a); done.
Qed.

Lemma lstrip_no_space g :
  all_chars (fun c => negb (isspace c)) g = true → lstrip g = g.
Proof. destruct g as [|a g]; simpl; [done|]. by destruct (isspace a). Qed.

Lemma rstrip_no_space g :
  all_chars (fun c => negb (isspace c)) g = true → rstrip g = g.
Proof.
  induction g as [|a g IH]; simpl; [done|].
  intros [Ha Hg]%andb_true_iff. rewrite (IH Hg).
  destruct g; [|done]. by destruct (isspace a).
Qed.

Lemma strip_no_space g :
  all_chars (fun c => negb (isspace c)) g = true → strip g = g.
Proof. intros H. unfold strip. by rewrite lstrip_no_space, rstrip_no_space. Qed.

(** The heads of call forms: a character of the first class, then
    characters of the second. *)
Lemma call_pattern_group stripped s :
  s ∈ call_symbols stripped →
  ∃ a t, s = String a t ∧ call_head a = true ∧ all_chars call_tail t = true.
Proof.
  unfold call_symbols. intros (m & -> & Hm)%list_elem_of_fmap.
  apply finditer_inv in Hm as (pre & s & -> & H). unfold match_ in H.
  unfold call_pattern in H. cbn [exec] in H.
  destruct s as [|p s]; [done|]. destruct (is_char "(" p); [|done].
  destruct s as [|a s]; [done|]. destruct (call_head a) eqn:Ea; [|done].
  apply greedy_inv in H as (run1 & s1 & -> & Hrun1 & H).
  apply greedy_inv in H as (run2 & s2 & -> & Hrun2 & H).
  destruct s2 as [|b s2]; [done|]. destruct (isspace b); [|done].
  apply greedy_inv in H as (run3 & s3 & -> & _ & [= <-]).
  exists a, (run1 +:+ run2). unfold group; cbn [group_open group_close].
  rewrite <- append_assoc, <- append_String, group_prefix.
  rewrite all_chars_append, Hrun2, andb_true_r. repeat split; [done|].
  eapply all_chars_impl; [|done]. unfold call_head, call_tail. intros c.
  rewrite !orb_true_iff. tauto.
Qed.
End captures.

(** The method [symbol[0]] of [java_like] always has a character to
    look at. *)
Lemma call_symbol_nonempty stripped symbol :
  symbol ∈ call_symbols stripped → symbol ≠ "".
Proof. by intros (a & t & -> & _)%call_pattern_group. Qed.

(** The symbol that a line defines is the token after the keyword as it
    stands: the substitution finds nothing to remove. *)
Lemma defined_symbol_raw stripped :
  defined_symbol stripped
  = match Re.search def_pattern stripped with
    | Some m => if startswith "(" (Re.group m) then None else Some (Re.group m)
    | None => None
    end.
Proof.
  unfold defined_symbol. destruct (Re.search def_pattern stripped) as [m|] eqn:E; [|done].
  apply def_pattern_group in E as (a & run & Hg & Hall).
  assert (Hns : all_chars (fun c => negb (isspace c)) (Re.group m) = true).
  { rewrite Hg. eapply all_chars_impl; [|done]. unfold not_space_or_close.
    by intros c [? _]%andb_true_iff. }
  unfold Re.sub_at_start. rewrite metadata_pattern_needs_space by done.
  rewrite strip_no_space by done. rewrite Hg.
  change (String.eqb (String a run) "") with false. cbn [negb andb].
  by destruct (startswith "(" (String a run)).
Qed.

(** ** The issues of a file and of a run *)

Lemma check_calls_elem file r issues (i : issue) :
  i ∈ check_calls file r issues ↔
  i ∈ issues
  ∨ ∃ L s D, (L, s) ∈ calls r ∧ definitions r !! s = Some D
             ∧ (s ∉ declares r) ∧ D > L ∧ i = (file, L, forward_message s L D).
Proof.
  unfold check_calls. rewrite foldl_check_call, elem_of_app, elem_of_concat_map.
  split; (intros [H|H]; [by left|right]).
  - destruct H as ([L s] & Hin & Hi).
    destruct (check_call_cases file r L s) as [(D & HD & Hs & HL & E)|[_ E]];
      rewrite E in Hi.
    + apply list_elem_of_singleton in Hi as ->. by exists L, s, D.
    + by apply elem_of_nil in Hi.
  - destruct H as (L & s & D & Hin & HD & Hs & HL & ->).
    exists (L, s). split; [done|].
    rewrite (check_call_forward file r L s D) by done. apply list_elem_of_here.
Qed.

Lemma analyze_file_app fs issues path :
  analyze_file fs issues path = issues ++ analyze_file fs [] path.
Proof.
  unfold analyze_file. destruct (fs path) as [content|e]; [|done].
  unfold check_calls. by rewrite (foldl_check_call _ _ issues), (foldl_check_call _ _ []).
Qed.

Lemma foldl_analyze_file fs issues paths :
  foldl (analyze_file fs) issues paths
  = issues ++ concat (map (analyze_file fs []) paths).
Proof.
  revert issues; induction paths as [|p paths IH]; intros issues; simpl.
  - by rewrite app_nil_r.
  - rewrite IH, analyze_file_app, <- app_assoc. done.
Qed.

Lemma analyze_file_raised fs path e :
  fs path = Raised e →
  analyze_file fs [] path = [(path_str path, 0, error_message e)].
Proof. intros H. unfold analyze_file. by rewrite H. Qed.

(** ** File discovery *)

Lemma elem_of_find_clj_files walk path :
  path ∈ find_clj_files walk ↔
  path ∈ walk ∧ endswith ".clj" (path_name path) = true
  ∧ contains "build" (path_str path) = false.
Proof.
  unfold find_clj_files, rglob_clj.
  rewrite elem_of_sorted, !list_elem_of_filter.
  destruct (contains "build" (path_str path)), (endswith ".clj" (path_name path));
    simpl; intuition congruence.
Qed.

Lemma find_clj_files_perm walk1 walk2 :
  walk1 ≡ₚ walk2 → find_clj_files walk1 = find_clj_files walk2.
Proof.
  intros H. unfold find_clj_files, rglob_clj.
  apply (sorted_unique path_lt path_lt_asym). by rewrite H.
Qed.

Lemma find_clj_files_Sorted walk :
  Sorted (not_after path_lt) (find_clj_files walk).
Proof. apply sorted_Sorted, path_lt_asym. Qed.

Lemma report_blocks_files_Sorted issues :
  Sorted (not_after str_lt) (map fst (report_blocks issues)).
Proof.
  unfold report_blocks. rewrite map_map. simpl. rewrite map_id.
  apply sorted_Sorted, str_lt_asym.
Qed.

Lemma report_blocks_entries_Sorted issues :
  Forall (fun block => Sorted (not_after entry_lt) block.2) (report_blocks issues).
Proof.
  unfold report_blocks. apply Forall_forall. intros block Hb.
  apply list_elem_of_fmap in Hb as (file_path & -> & _). simpl.
  apply sorted_Sorted, entry_lt_asym.
Qed.

Lemma calls_line_positive content L s :
  (L, s) ∈ calls (parse_file content) → 1 ≤ L ≤ line_count content.
Proof.
  rewrite parse_file_calls.
  intros (i & line & Hi & -> & _)%calls_of_lines_elem.
  apply lookup_lt_Some in Hi. unfold line_count. lia.
Qed.

Lemma analyze_file_elem fs path (i : issue) :
  i ∈ analyze_file fs [] path ↔
  (∃ e, fs path = Raised e ∧ i = (path_str path, 0, error_message e))
  ∨ (∃ content L s D,
       fs path = Returned content
       ∧ i = (path_str path, L, forward_message s L D)
       ∧ (L, s) ∈ calls (parse_file content)
       ∧ definitions (parse_file content) !! s = Some D
       ∧ (s ∉ declares (parse_file content)) ∧ D > L).
Proof.
  unfold analyze_file. destruct (fs path) as [content|e] eqn:E.
  - rewrite check_calls_elem. split.
    + intros [?%elem_of_nil|(L & s & D & H1 & H2 & H3 & H4 & ->)]; [done|].
      right. by exists content, L, s, D.
    + intros [(e & ? & _)|(c & L & s & D & [= <-] & -> & H1 & H2 & H3 & H4)];
        [done|].
      right. by exists L, s, D.
  - cbn [app]. rewrite list_elem_of_singleton. split.
    + intros ->. left. by exists e.
    + intros [(e' & [= <-] & ->)|(c & L & s & D & ? & _)]; done.
Qed.

(** ** The texts of a run *)







(** * The claims *)




(** C3, as claimed: one violation for the scenario.  The analyzer adds
    none. *)
Lemma scenario_has_no_violation :
  analyze_file (fun _ => Returned scenario) [] ["main.clj"] = []
  ∧ ¬ ∃ message,
        analyze_file (fun _ => Returned scenario) [] ["main.clj"]
        = [("main.clj", 1, message)].
Proof.
  assert (E : analyze_file (fun _ => Returned scenario) [] ["main.clj"] = [])
    by (vm_compute; reflexivity).
  split; [done|]. rewrite E. by intros [message H].
Qed.

(** C3, amended.  For the file whose line 1 is [(defn main [] (helper))]
    and whose line 3 is [(defn helper [] 1)], the analyzer emits no
    violation: the head [helper] is followed by [)], and a call is
    recorded only when blank space follows the head.  With line 1
    [(defn main [] (helper 1))] it emits exactly one violation, citing
    call line 1 and definition line 3. *)
Theorem scenario_needs_blank_after_head (path : Path) (issues : list issue) :
  calls (parse_file scenario) = []
  ∧ analyze_file (fun _ => Returned scenario) issues path = issues
  ∧ calls (parse_file scenario_with_argument) = [(1, "helper")]
  ∧ analyze_file (fun _ => Returned scenario_with_argument) issues path
    = issues ++ [(path_str path, 1, forward_message "helper" 1 3)]
  ∧ forward_message "helper" 1 3
    = "函数 'helper' 在第 1 行被调用，但在第 3 行才定义（缺少declare）".
Proof.
  assert (E1 : calls (parse_file scenario) = []) by (vm_compute; reflexivity).
  assert (E2 : calls (parse_file scenario_with_argument) = [(1, "helper")])
    by (vm_compute; reflexivity).
  split; [exact E1|]. split.
  { unfold analyze_file, check_calls. by rewrite E1. }
  split; [exact E2|]. split; [|vm_compute; reflexivity].
  unfold analyze_file, check_calls. rewrite E2. cbn [foldl].
  rewrite check_call_app.
  rewrite (check_call_forward _ _ 1 "helper" 3); [reflexivity|..].
  - vm_compute; reflexivity.
  - rewrite parse_file_declares.
    replace (concat _) with (@nil string) by (vm_compute; reflexivity).
    apply not_elem_of_empty.
  - lia.
Qed.

(** C4.  On [(defn ^:private foo [] 1)] the scanner records the metadata
    token [^:private] as the defined symbol and records nothing for
    [foo].  In general the recorded symbol is the token after the
    keyword unchanged: that token holds no blank, and the substitution
    meant to remove metadata needs one. *)
Theorem metadata_token_recorded_as_symbol :
  definitions (parse_file private_definition) !! "foo" = None
  ∧ definitions (parse_file private_definition) !! "^:private" = Some 1
  ∧ ∀ stripped,
      defined_symbol stripped
      = match Re.search def_pattern stripped with
        | Some m => if startswith "(" (Re.group m) then None else Some (Re.group m)
        | None => None
        end.
Proof.
  split; [vm_compute; reflexivity|]. split; [vm_compute; reflexivity|].
  apply defined_symbol_raw.
Qed.




(** C6.  An identifier that is on the allowlist, or that contains a dot
    without starting with a namespace prefix of the file followed by a
    dot, or whose first character is upper case, or that contains [$],
    is in no entry of [calls], whatever the file defines or declares;
    so every issue that the file adds is about a different symbol. *)
Theorem classifier_excludes (content s : string) :
  allowlisted s = true
  ∨ (contains "." s = true
     ∧ ∀ p, p ∈ namespaces (parse_file content) → startswith (p +:+ ".") s = false)
  ∨ ((∃ c t, s = String c t ∧ isupper c = true) ∨ contains "$" s = true) →
  (∀ L, (L, s) ∉ calls (parse_file content))
  ∧ ∀ file issues (i : issue),
      i ∈ check_calls file (parse_file content) issues →
      i ∈ issues
      ∨ ∃ L s' D, s' ≠ s ∧ (L, s') ∈ calls (parse_file content)
                  ∧ i = (file, L, forward_message s' L D).
Proof.
  intros H%excluded_rules. rewrite parse_file_namespaces in H.
  assert (Hno : ∀ L, (L, s) ∉ calls (parse_file content)).
  { intros L. rewrite parse_file_calls.
    intros (i & line & _ & _ & _ & _ & E)%calls_of_lines_elem. congruence. }
  split; [done|].
  intros file issues i [Hi|(L & s' & D & Hin & _ & _ & _ & ->)]%check_calls_elem;
    [by left|right].
  exists L, s', D. repeat split; try done. intros ->. by apply (Hno L).
Qed.

Lemma classifier_excludes_witness :
  (allowlisted "str" = true
   ∨ (contains "." "str" = true
      ∧ ∀ p, p ∈ namespaces (parse_file allowlisted_call) →
             startswith (p +:+ ".") "str" = false)
   ∨ ((∃ c t, "str" = String c t ∧ isupper c = true) ∨ contains "$" "str" = true))
  ∧ ∀ L, (L, "str") ∉ calls (parse_file allowlisted_call).
Proof.
  assert (H : allowlisted "str" = true) by (vm_compute; reflexivity).
  split; [by left|].
  apply (classifier_excludes allowlisted_call "str"). by left.
Defined.

(** Where every [print] returns, the status that [main] passes to
    [sys.exit] is 0 exactly when the run recorded no issue and 1 exactly
    when it recorded some; a discovered file that could not be read
    makes it 1. *)
Lemma main_status_reflects_issues (root : Path) (walk : list Path)
    (fs : filesystem) :
  ((main root walk fs).2 = 0 ↔ (analyze_directory fs walk []).2 = [])
  ∧ ((main root walk fs).2 = 1 ↔ (analyze_directory fs walk []).2 ≠ [])
  ∧ ∀ path e, path ∈ find_clj_files walk → fs path = Raised e →
              (main root walk fs).2 = 1.
Proof.
  assert (Hmain : (main root walk fs).2
                  = match (analyze_directory fs walk []).2 with
                    | _ :: _ => 1
                    | [] => 0
                    end).
  { unfold main. by destruct (analyze_directory fs walk []) as [found [|i issues]]. }
  rewrite Hmain. split; [|split].
  - by destruct (analyze_directory fs walk []).2.
  - by destruct (analyze_directory fs walk []).2.
  - intros path e Hin He. unfold analyze_directory; cbn [snd].
    rewrite foldl_analyze_file. cbn [app].
    apply list_elem_of_split in Hin as (before & after & ->).
    rewrite map_app, concat_app. cbn [map concat].
    rewrite (analyze_file_raised fs path e He).
    by destruct (concat (map (analyze_file fs []) before)).
Qed.



(** C8, as claimed: undecodable content is a failure of the file and is
    recorded with line number zero.  It fails: whatever the codec makes
    of two bytes that are no UTF-8, the file adds no issue with line
    number zero. *)
Lemma undecodable_file_is_no_failure :
  ¬ ∃ (decode : list Byte.byte → string) (i : issue),
      i ∈ analyze_file (read_text decode undecodable_disk) [] ["src"; "raw.clj"]
      ∧ i.1.2 = 0.
Proof.
  intros (decode & i & Hi & H0).
  apply analyze_file_elem in Hi
    as [(e & He & _)|(content & L & s & D & _ & -> & Hin & _)].
  - unfold read_text, undecodable_disk in He. done.
  - apply calls_line_positive in Hin. simpl in H0. lia.
Qed.

(** C8, amended.  A discovered file whose opening or reading raises
    contributes exactly one issue, against that file, with line number
    zero and the text [分析文件时出错: ] followed by the description of
    the failure; the files before and after it contribute what they
    contribute on their own.  Bytes that cannot be decoded are no
    failure: a file that can be read adds no issue with line number
    zero, whatever its bytes. *)
Theorem failing_file_is_one_issue (fs : filesystem) (walk : list Path)
    (issues : list issue) (path : Path) (e : string) :
  fs path = Raised e →
  analyze_file fs [] path = [(path_str path, 0, "分析文件时出错: " +:+ e)]
  ∧ (analyze_directory fs walk issues).2
    = issues ++ concat (map (analyze_file fs []) (find_clj_files walk))
  ∧ (∀ before after,
       find_clj_files walk = before ++ path :: after →
       (analyze_directory fs walk issues).2
       = issues ++ concat (map (analyze_file fs []) before)
         ++ [(path_str path, 0, "分析文件时出错: " +:+ e)]
         ++ concat (map (analyze_file fs []) after))
  ∧ ∀ (decode : list Byte.byte → string) (d : disk) path' bytes (i : issue),
      d path' = Returned bytes →
      i ∈ analyze_file (read_text decode d) [] path' → i.1.2 ≠ 0.
Proof.
  intros He.
  assert (H1 : analyze_file fs [] path = [(path_str path, 0, "分析文件时出错: " +:+ e)])
    by (by apply analyze_file_raised).
  split; [exact H1|].
  assert (Hall : (analyze_directory fs walk issues).2
                 = issues ++ concat (map (analyze_file fs []) (find_clj_files walk))).
  { unfold analyze_directory; cbn [snd]. apply foldl_analyze_file. }
  split; [done|]. split.
  - intros before after Hsplit. rewrite Hall, Hsplit.
    rewrite map_app, concat_app. cbn [map concat]. by rewrite H1.
  - intros decode d path' bytes i Hd
      [(e' & He' & _)|(content & L & s & D & _ & -> & Hin & _)]%analyze_file_elem.
    + unfold read_text in He'. by rewrite Hd in He'.
    + apply calls_line_positive in Hin. simpl. lia.
Qed.

Lemma failing_file_is_one_issue_witness :
  unreadable_fs ["src"; "bad.clj"] = Raised "[Errno 13] Permission denied"
  ∧ analyze_file unreadable_fs [] ["src"; "bad.clj"]
    = [("src/bad.clj", 0, "分析文件时出错: [Errno 13] Permission denied")]
  ∧ (analyze_directory unreadable_fs [["src"; "ok.clj"]; ["src"; "bad.clj"]] []).2
    = [("src/bad.clj", 0, "分析文件时出错: [Errno 13] Permission denied");
       ("src/ok.clj", 1, "函数 'helper' 在第 1 行被调用，但在第 3 行才定义（缺少declare）")].
Proof.
  assert (H : unreadable_fs ["src"; "bad.clj"] = Raised "[Errno 13] Permission denied")
    by reflexivity.
  split; [exact H|].
  destruct (failing_file_is_one_issue unreadable_fs
              [["src"; "ok.clj"]; ["src"; "bad.clj"]] [] ["src"; "bad.clj"] _ H)
    as (H1 & H2 & _).
  split; [exact H1|]. rewrite H2. vm_compute. reflexivity.
Defined.

(** C9.  The text that a run prints and its exit status depend on the
    file tree only, not on the order in which the directory walk yields
    its paths: the files are analyzed in sorted path order, the report
    lists the files in sorted order of their path strings and, under
    each file, the entries in sorted order of (line number, message). *)
Theorem report_independent_of_walk_order (root : Path) (fs : filesystem)
    (walk1 walk2 : list Path) :
  walk1 ≡ₚ walk2 →
  main root walk1 fs = main root walk2 fs
  ∧ Sorted (not_after path_lt) (find_clj_files walk1)
  ∧ Sorted (not_after str_lt)
      (map fst (report_blocks (analyze_directory fs walk1 []).2))
  ∧ Forall (fun block => Sorted (not_after entry_lt) block.2)
      (report_blocks (analyze_directory fs walk1 []).2).
Proof.
  intros Hp. split; [|split; [|split]].
  - unfold main, analyze_directory. by rewrite (find_clj_files_perm walk1 walk2 Hp).
  - apply find_clj_files_Sorted.
  - apply report_blocks_files_Sorted.
  - apply report_blocks_entries_Sorted.
Qed.

Lemma report_independent_of_walk_order_witness :
  [["src"; "ok.clj"]; ["src"; "bad.clj"]] ≡ₚ [["src"; "bad.clj"]; ["src"; "ok.clj"]]
  ∧ main ["/"; "work"] [["src"; "ok.clj"]; ["src"; "bad.clj"]] unreadable_fs
    = main ["/"; "work"] [["src"; "bad.clj"]; ["src"; "ok.clj"]] unreadable_fs.
Proof.
  assert (H : [["src"; "ok.clj"]; ["src"; "bad.clj"]]
              ≡ₚ [["src"; "bad.clj"]; ["src"; "ok.clj"]]) by apply perm_swap.
  split; [exact H|].
  apply (report_independent_of_walk_order ["/"; "work"] unreadable_fs _ _ H).
Defined.

(** C10.  A path whose string contains [build] anywhere, be it inside a
    file name or inside a directory name, is not among the discovered
    files. *)
Theorem build_substring_excludes (walk : list Path) (path : Path) :
  contains "build" (path_str path) = true → path ∉ find_clj_files walk.
Proof.
  intros H (_ & _ & E)%elem_of_find_clj_files. congruence.
Qed.

Lemma build_substring_excludes_witness :
  contains "build" (path_str ["src"; "rebuild.clj"]) = true
  ∧ ["src"; "rebuild.clj"]
    ∉ find_clj_files [["src"; "rebuild.clj"]; ["builders"; "core.clj"];
                      ["src"; "core.clj"]].
Proof.
  assert (H : contains "build" (path_str ["src"; "rebuild.clj"]) = true)
    by (vm_compute; reflexivity).
  split; [exact H|]. by apply build_substring_excludes.
Defined.

(** * Further properties of the scanner *)

(** ** Characters in and out of a text *)

Lemma contains_char_cons x a s :
  contains (String x "") (String a s) = is_char x a || contains (String x "") s.
Proof.
  cbn [contains]. f_equal. unfold startswith, is_char. cbn [String.prefix].
  destruct (ascii_dec x a) as [->|Hne].
  - rewrite Ascii.eqb_refl. by destruct s.
  - symmetry. by apply Ascii.eqb_neq.
Qed.


Lemma contains_char_append x pre t :
  contains (String x "") (pre +:+ String x t) = true.
Proof.
  induction pre as [|a pre IH].
  - rewrite append_empty_l, contains_char_cons. unfold is_char.
    by rewrite Ascii.eqb_refl.
  - rewrite append_String, contains_char_cons, IH. apply orb_true_r.
Qed.

(** ** Existence of a binding *)


(** ** The shape of what the patterns capture *)


Lemma declare_pattern_needs_close stripped :
  contains ")" stripped = false → declared_symbols stripped = [].
Proof.
  intros Hc. unfold declared_symbols.
  destruct (Re.search declare_pattern stripped) as [m|] eqn:E; [|done].
  apply search_inv in E as (pre & t & -> & H). unfold Re.match_ in H.
  change declare_pattern
    with ((Re.lit "(declare" ++
           [Re.Cls isspace Re.Plus; Re.Open;
            Re.Cls (fun c => negb (is_char ")" c)) Re.Plus; Re.Close])
          ++ [Re.Cls (is_char ")") Re.One]) in H.
  apply exec_app in H as (pre' & t' & o & c & -> & H).
  cbn [Re.exec] in H. destruct t' as [|a t']; [done|].
  destruct (is_char ")" a) eqn:Ea; [|done].
  apply Ascii.eqb_eq in Ea as <-.
  rewrite <- append_assoc, contains_char_append in Hc. done.
Qed.

Lemma defined_symbol_shape stripped s :
  defined_symbol stripped = Some s →
  s ≠ "" ∧ all_chars not_space_or_close s = true ∧ startswith "(" s = false.
Proof.
  rewrite defined_symbol_raw.
  destruct (Re.search def_pattern stripped) as [m|] eqn:E; [|done].
  apply def_pattern_group in E as (a & run & Hg & Hall).
  destruct (startswith "(" (Re.group m)) eqn:Hp; [done|].
  intros [= <-]. rewrite Hg in *. done.
Qed.

(** ** The calls of a file, in order *)

Lemma calls_of_lines_sorted ns n lines :
  StronglySorted Z.le (map fst (calls_of_lines ns n lines)).
Proof.
  revert n; induction lines as [|line lines IH]; intros n; simpl; [constructor|].
  rewrite map_app. apply StronglySorted_app. split; [|split].
  - intros L1 L2 H1 H2.
    apply list_elem_of_fmap in H1 as ([L s] & -> & H1).
    apply list_elem_of_fmap in H1 as (s' & [= -> ->] & _).
    apply list_elem_of_fmap in H2 as ([L s2] & -> & H2).
    apply calls_of_lines_elem in H2 as (i & l & _ & -> & _). simpl. lia.
  - rewrite map_map. simpl. generalize (call_line ns line).
    intros l; induction l as [|x l IHl]; simpl; constructor; [done|].
    apply Forall_forall. intros y (z & -> & _)%list_elem_of_fmap. lia.
  - apply IH.
Qed.




(** X3.  The entries of [calls] stand in the order of their lines, and
    each names a line of the file that is neither blank nor a comment
    and that has the symbol at the head of one of its forms. *)
Theorem calls_follow_the_lines (content : string) :
  StronglySorted Z.le (map fst (calls (parse_file content)))
  ∧ ∀ L s, (L, s) ∈ calls (parse_file content) →
      1 ≤ L ≤ Z.of_nat (length (split "010" content))
      ∧ ∃ line, split "010" content !! Z.to_nat (L - 1) = Some line
                ∧ skipped (strip line) = false
                ∧ s ∈ call_symbols (strip line).
Proof.
  rewrite parse_file_calls. split; [apply calls_of_lines_sorted|].
  intros L s (i & line & Hi & -> & Hs & Hin & _)%calls_of_lines_elem.
  apply lookup_lt_Some in Hi as Hlt. split; [lia|].
  exists line. replace (Z.to_nat (1 + Z.of_nat i - 1)) with i by lia. done.
Qed.

(** X4.  Every binding of [definitions] maps a symbol that is non-empty,
    free of blanks and of [)], and not beginning with [(], to the number
    of a line of the file. *)
Theorem definitions_are_tokens_on_lines (content s : string) (n : Z) :
  definitions (parse_file content) !! s = Some n →
  1 ≤ n ≤ Z.of_nat (length (split "010" content))
  ∧ s ≠ "" ∧ all_chars not_space_or_close s = true ∧ startswith "(" s = false.
Proof.
  rewrite parse_file_definitions. intros [Hdef _]%define_lines_last.
  split; [apply defines_in_lt in Hdef; lia|].
  destruct Hdef as (i & line & _ & _ & _ & Hd). by apply defined_symbol_shape in Hd.
Qed.

Lemma definitions_are_tokens_on_lines_witness :
  definitions (parse_file redefinition) !! "x" = Some 2
  ∧ 1 ≤ 2 ≤ Z.of_nat (length (split "010" redefinition))
  ∧ "x" ≠ "" ∧ all_chars not_space_or_close "x" = true ∧ startswith "(" "x" = false.
Proof.
  assert (H : definitions (parse_file redefinition) !! "x" = Some 2)
    by (vm_compute; reflexivity).
  split; [exact H|]. exact (definitions_are_tokens_on_lines redefinition "x" 2 H).
Defined.


(** X6.  A line without [)] declares nothing: a declare form that closes
    on a later line is not seen, whatever symbols it lists, and scanning
    the line leaves [declares] as it was. *)
Theorem unclosed_declare_declares_nothing (line : string) :
  contains ")" (strip line) = false →
  declared_symbols (strip line) = []
  ∧ ∀ r n, declares (scan_line r n line) = declares r.
Proof.
  intros H%declare_pattern_needs_close. split; [done|]. intros r n.
  destruct (scan_line_fields r n line) as (_ & -> & _).
  unfold declare_line. rewrite H.
  destruct (skipped (strip line)); simpl; by rewrite (right_id_L ∅ (∪)).
Qed.

Lemma unclosed_declare_declares_nothing_witness :
  contains ")" (strip "(declare helper") = false
  ∧ declared_symbols (strip "(declare helper") = []
  ∧ ∀ r n, declares (scan_line r n "(declare helper") = declares r.
Proof.
  assert (H : contains ")" (strip "(declare helper") = false)
    by (vm_compute; reflexivity).
  split; [exact H|]. exact (unclosed_declare_declares_nothing _ H).
Defined.

(** * Further properties of the detector and the run *)



Lemma define_lines_skipped d n lines :
  Forall (fun line => skipped (strip line) = true) lines →
  define_lines d n lines = d.
Proof.
  intros H; revert n; induction H as [|line lines Hs _ IH]; intros n; simpl; [done|].
  unfold define_line. rewrite Hs. apply IH.
Qed.

(** X8.  A file whose lines are all blank or comments has no
    definition, no declaration and no call, and adds no issue. *)
Theorem blank_file_is_clean (content : string) :
  Forall (fun line => skipped (strip line) = true) (split "010" content) →
  definitions (parse_file content) = ∅
  ∧ declares (parse_file content) = ∅
  ∧ calls (parse_file content) = []
  ∧ ∀ fs path issues,
      fs path = Returned content → analyze_file fs issues path = issues.
Proof.
  intros H.
  assert (Hc : calls (parse_file content) = []).
  { rewrite parse_file_calls. generalize 1.
    induction H as [|line lines Hs _ IH]; intros n; simpl; [done|].
    unfold call_line. rewrite Hs. apply IH. }
  split; [|split; [|split; [done|]]].
  - rewrite parse_file_definitions. by apply define_lines_skipped.
  - rewrite parse_file_declares.
    replace (concat _) with (@nil string); [done|].
    induction H as [|line lines Hs _ IH]; simpl; [done|].
    unfold declare_line at 1. by rewrite Hs.
  - intros fs path issues Hfs. unfold analyze_file, check_calls.
    by rewrite Hfs, Hc.
Qed.

Lemma blank_file_is_clean_witness :
  Forall (fun line => skipped (strip line) = true)
    (split "010" ("; notes" +:+ nl +:+ "   " +:+ nl))
  ∧ calls (parse_file ("; notes" +:+ nl +:+ "   " +:+ nl)) = [].
Proof.
  assert (H : Forall (fun line => skipped (strip line) = true)
                (split "010" ("; notes" +:+ nl +:+ "   " +:+ nl))).
  { vm_compute. repeat constructor. }
  split; [exact H|].
  destruct (blank_file_is_clean _ H) as (_ & _ & Hc & _). exact Hc.
Defined.

Lemma filter_all {A} (P : A → Prop) `{∀ x, Decision (P x)} (l : list A) :
  (∀ x, x ∈ l → P x) → filter P l = l.
Proof.
  induction l as [|x l IH]; intros Hl; [done|].
  rewrite filter_cons_True by (apply Hl, list_elem_of_here).
  f_equal. apply IH. intros y Hy. by apply Hl, list_elem_of_further.
Qed.

Lemma filter_none {A} (P : A → Prop) `{∀ x, Decision (P x)} (l : list A) :
  (∀ x, x ∈ l → ¬ P x) → filter P l = [].
Proof.
  induction l as [|x l IH]; intros Hl; [done|].
  rewrite filter_cons_False by (apply Hl, list_elem_of_here).
  apply IH. intros y Hy. by apply Hl, list_elem_of_further.
Qed.

(** X9.  Discovery neither loses nor repeats a path: the discovered
    files are, up to order, the paths of the walk whose name ends in
    [.clj] and whose string does not contain [build]; and discovering
    again among the discovered files changes nothing. *)
Theorem discovery_is_a_sorted_selection (walk : list Path) :
  find_clj_files walk
  ≡ₚ filter (fun p => endswith ".clj" (path_name p) = true
                      ∧ contains "build" (path_str p) = false) walk
  ∧ find_clj_files (find_clj_files walk) = find_clj_files walk.
Proof.
  assert (Hp : ∀ w, find_clj_files w
                ≡ₚ filter (fun p => endswith ".clj" (path_name p) = true
                                    ∧ contains "build" (path_str p) = false) w).
  { intros w. unfold find_clj_files, rglob_clj.
    rewrite sorted_perm, list_filter_filter.
    erewrite list_filter_iff; [done|]. intros p. simpl.
    destruct (contains "build" (path_str p)), (endswith ".clj" (path_name p));
      simpl; intuition congruence. }
  split; [apply Hp|].
  apply (Sorted_unique (not_after path_lt)); try apply find_clj_files_Sorted.
  rewrite (Hp (find_clj_files walk)).
  rewrite filter_all; [done|].
  intros p (_ & H1 & H2)%elem_of_find_clj_files. done.
Qed.

(** X10.  The exit status and the printed verdict agree: [main] exits
    with 0 exactly when the report it printed is the confirmation
    line. *)
Theorem exit_status_matches_verdict (root : Path) (walk : list Path)
    (fs : filesystem) :
  (main root walk fs).2 = 0 ↔
  print_report (analyze_directory fs walk []).2 = print "[OK] 未发现声明顺序异常！".
Proof.
  assert (Hmain : (main root walk fs).2
                  = match (analyze_directory fs walk []).2 with
                    | _ :: _ => 1
                    | [] => 0
                    end).
  { unfold main. by destruct (analyze_directory fs walk []) as [found [|i issues]]. }
  rewrite Hmain. destruct (analyze_directory fs walk []).2 as [|i issues]; [done|].
  split; [done|]. intros H. exfalso.
  apply (f_equal (fun s => match s with
                           | String c _ => Some c
                           | EmptyString => None
                           end)) in H.
  unfold print_report, print in H.
  cbv beta iota delta [String.append] in H. discriminate.
Qed.

(** X11.  A run records as many issues with line number zero as there
    are discovered files that could not be read. *)
Theorem one_line_zero_issue_per_failure (fs : filesystem) (walk : list Path) :
  length (filter (fun i : issue => i.1.2 = 0) (analyze_directory fs walk []).2)
  = length (filter (fun p => raised (fs p) = true) (find_clj_files walk)).
Proof.
  unfold analyze_directory; cbn [snd]. rewrite foldl_analyze_file. cbn [app].
  induction (find_clj_files walk) as [|p files IH]; [done|].
  cbn [map concat]. rewrite filter_app, length_app, IH.
  destruct (fs p) as [content|e] eqn:E.
  - rewrite filter_cons_False by (rewrite E; done).
    rewrite filter_none; [done|].
    intros i [(e & He & _)|(c & L & s & D & _ & -> & Hin & _)]%analyze_file_elem;
      [congruence|].
    apply calls_line_positive in Hin. simpl. lia.
  - rewrite filter_cons_True by (rewrite E; done).
    by rewrite (analyze_file_raised fs p e E).
Qed.

(** * Further properties of the report *)

Section grouping.
Implicit Types (bf : list (string * list (Z * string))) (f : string)
  (e : Z * string) (issues : list issue).

(** The body of the grouping loop of [print_report]. *)
Local Abbreviation step :=
  (fun by_file '(file_path, line_num, message) =>
     by_file_append by_file file_path (line_num, message)).

Lemma by_file_get_append_eq bf f e :
  by_file_get (by_file_append bf f e) f = by_file_get bf f ++ [e].
Proof.
  induction bf as [|[k es] bf IH]; simpl.
  - by rewrite String.eqb_refl.
  - destruct (String.eqb_spec k f) as [->|Hne]; simpl.
    + by rewrite String.eqb_refl.
    + by destruct (String.eqb_spec k f).
Qed.

Lemma by_file_get_append_ne bf f e f' :
  f ≠ f' → by_file_get (by_file_append bf f e) f' = by_file_get bf f'.
Proof.
  intros Hne. induction bf as [|[k es] bf IH]; simpl.
  - by destruct (String.eqb_spec f f').
  - destruct (String.eqb_spec k f) as [->|Hkf]; simpl.
    + by destruct (String.eqb_spec f f').
    + by destruct (String.eqb_spec k f').
Qed.

Lemma by_file_append_keys bf f e :
  map fst (by_file_append bf f e)
  = if decide (f ∈ map fst bf) then map fst bf else map fst bf ++ [f].
Proof.
  induction bf as [|[k es] bf IH].
  - cbn [by_file_append map fst app].
    destruct (decide (f ∈ [])) as [?%elem_of_nil|]; done.
  - cbn [by_file_append map fst].
    destruct (String.eqb_spec k f) as [->|Hkf]; cbn [map fst].
    + destruct (decide (f ∈ f :: map fst bf)) as [|Hn]; [done|].
      destruct Hn. apply list_elem_of_here.
    + rewrite IH. destruct (decide (f ∈ map fst bf)) as [Hin|Hin].
      * destruct (decide (f ∈ k :: map fst bf)) as [|Hn]; [done|].
        destruct Hn. by apply list_elem_of_further.
      * destruct (decide (f ∈ k :: map fst bf)) as [[->|?]%elem_of_cons|];
          done.
Qed.

Lemma group_from_get bf issues f :
  by_file_get (foldl step bf issues) f
  = by_file_get bf f ++ map issue_entry (filter (fun i => issue_file i = f) issues).
Proof.
  revert bf; induction issues as [|[[fp ln] msg] issues IH]; intros bf; simpl.
  - by rewrite app_nil_r.
  - rewrite IH. destruct (decide (fp = f)) as [->|Hne].
    + rewrite by_file_get_append_eq, filter_cons_True by done.
      by rewrite <- app_assoc.
    + rewrite by_file_get_append_ne, filter_cons_False by done. done.
Qed.

Lemma group_from_keys_elem bf issues f :
  f ∈ map fst (foldl step bf issues)
  ↔ f ∈ map fst bf ∨ f ∈ map issue_file issues.
Proof.
  revert bf; induction issues as [|[[fp ln] msg] issues IH]; intros bf; simpl.
  - split; [by left|]. by intros [?|?%elem_of_nil].
  - rewrite IH, by_file_append_keys, elem_of_cons. unfold issue_file at 2; simpl.
    destruct (decide (fp ∈ map fst bf)) as [Hin|Hin].
    + split; [intros [?|?]; auto|]. intros [?|[->|?]]; auto.
    + rewrite elem_of_app, list_elem_of_singleton. tauto.
Qed.

Lemma group_from_keys_NoDup bf issues :
  NoDup (map fst bf) → NoDup (map fst (foldl step bf issues)).
Proof.
  revert bf; induction issues as [|[[fp ln] msg] issues IH]; intros bf Hbf; simpl;
    [done|].
  apply IH. rewrite by_file_append_keys.
  destruct (decide (fp ∈ map fst bf)) as [Hin|Hin]; [done|].
  apply NoDup_app. split; [done|]. split; [|apply NoDup_singleton].
  intros x Hx ->%list_elem_of_singleton. done.
Qed.

Lemma group_by_file_get issues f :
  by_file_get (group_by_file issues) f
  = map issue_entry (filter (fun i => issue_file i = f) issues).
Proof. unfold group_by_file. by rewrite group_from_get. Qed.

Lemma group_by_file_keys_elem issues f :
  f ∈ map fst (group_by_file issues) ↔ f ∈ map issue_file issues.
Proof.
  unfold group_by_file. rewrite group_from_keys_elem. split; [|by right].
  by intros [?%elem_of_nil|?].
Qed.

Lemma group_by_file_keys_NoDup issues : NoDup (map fst (group_by_file issues)).
Proof. apply group_from_keys_NoDup. constructor. Qed.
End grouping.

Lemma concat_map_perm {A B} (g g' : A → list B) (l l' : list A) :
  l ≡ₚ l' → (∀ x, g x ≡ₚ g' x) → concat (map g l) ≡ₚ concat (map g' l').
Proof.
  intros Hl Hg. transitivity (concat (map g l')).
  - clear Hg. induction Hl as [|x l l' _ IH|x y l|l1 l2 l3 _ IH1 _ IH2]; simpl.
    + done.
    + by rewrite IH.
    + rewrite !app_assoc. f_equiv. apply Permutation_app_comm.
    + by rewrite IH1.
  - clear Hl. induction l' as [|x l' IH]; simpl; [done|]. by rewrite IH, Hg.
Qed.

Lemma concat_map_ext_in {A B} (g g' : A → list B) (l : list A) :
  (∀ x, x ∈ l → g x = g' x) → concat (map g l) = concat (map g' l).
Proof.
  induction l as [|x l IH]; intros H; simpl; [done|].
  rewrite (H x) by apply list_elem_of_here.
  rewrite IH; [done|]. intros y Hy. by apply H, list_elem_of_further.
Qed.

(** One more issue goes to the one block of its file. *)
Lemma partition_insert (g : string → list issue) (i : issue) (keys : list string) :
  NoDup keys → issue_file i ∈ keys →
  concat (map (fun f => if decide (issue_file i = f) then i :: g f else g f) keys)
  ≡ₚ i :: concat (map g keys).
Proof.
  induction keys as [|k keys IH]; intros Hnd Hin; [by apply elem_of_nil in Hin|].
  apply NoDup_cons in Hnd as [Hk Hnd]. cbn [map concat].
  destruct (decide (issue_file i = k)) as [<-|Hne].
  - rewrite (concat_map_ext_in _ g keys); [done|].
    intros f Hf. destruct (decide (issue_file i = f)) as [<-|]; done.
  - apply elem_of_cons in Hin as [?|Hin]; [done|].
    rewrite (IH Hnd Hin). by rewrite Permutation_middle.
Qed.

(** Sorting the issues out by file: with each file listed once and
    every issue's file listed, nothing is lost or repeated. *)
Lemma partition_by_keys (keys : list string) (issues : list issue) :
  NoDup keys → (∀ i, i ∈ issues → issue_file i ∈ keys) →
  concat (map (fun f => filter (fun i => issue_file i = f) issues) keys) ≡ₚ issues.
Proof.
  intros Hnd. induction issues as [|i issues IH]; intros Hall.
  - clear. induction keys as [|k keys IH]; simpl; done.
  - transitivity
      (i :: concat (map (fun f => filter (fun j => issue_file j = f) issues) keys)).
    2:{ f_equiv. apply IH. intros j Hj. by apply Hall, list_elem_of_further. }
    rewrite <- (partition_insert _ i keys Hnd) by apply Hall, list_elem_of_here.
    erewrite concat_map_ext_in; [done|]. intros f _. simpl.
    rewrite filter_cons. by destruct (decide (issue_file i = f)).
Qed.

Global Instance entry_not_after_trans : Transitive (not_after entry_lt).
Proof.
  intros [a1 a2] [b1 b2] [c1 c2]. unfold not_after, entry_lt. simpl.
  destruct (Z.eqb_spec b1 a1), (Z.eqb_spec c1 b1), (Z.eqb_spec c1 a1);
    destruct (Z.ltb_spec b1 a1), (Z.ltb_spec c1 b1), (Z.ltb_spec c1 a1);
    try lia; try done.
  apply (str_not_after_trans a2 b2 c2).
Qed.

Global Instance entry_not_after_antisym : AntiSymm (=) (not_after entry_lt).
Proof.
  intros [a1 a2] [b1 b2]. unfold not_after, entry_lt. simpl.
  destruct (Z.eqb_spec b1 a1), (Z.eqb_spec a1 b1);
    destruct (Z.ltb_spec b1 a1), (Z.ltb_spec a1 b1); try lia; try done.
  intros H1 H2. subst. f_equal. by apply str_lt_total.
Qed.

Lemma rebuild_filtered_issues (f : string) (issues : list issue) :
  map (fun e => (f, e.1, e.2))
    (map issue_entry (filter (fun i => issue_file i = f) issues))
  = filter (fun i => issue_file i = f) issues.
Proof.
  rewrite map_map. induction issues as [|[[fp ln] msg] issues IH]; [done|].
  rewrite filter_cons. destruct (decide (issue_file (fp, ln, msg) = f)) as [E|];
    [|done].
  cbn [map]. rewrite IH. unfold issue_file in E. simpl in E. by subst.
Qed.

(** X12.  The report shows every issue exactly once: each file has one
    block, and the entries of all the blocks, taken with the file of
    their block, are the recorded issues up to order. *)
Theorem report_shows_each_issue_once (issues : list issue) :
  NoDup (map fst (report_blocks issues))
  ∧ concat (map block_issues (report_blocks issues)) ≡ₚ issues.
Proof.
  unfold report_blocks. rewrite !map_map. split.
  - simpl. rewrite map_id, sorted_perm. apply group_by_file_keys_NoDup.
  - transitivity
      (concat (map (fun f => filter (fun i => issue_file i = f) issues)
                 (map fst (group_by_file issues)))).
    + apply concat_map_perm; [apply sorted_perm|]. intros f.
      unfold block_issues. simpl.
      rewrite <- (rebuild_filtered_issues f issues), <- group_by_file_get.
      apply Permutation_map, sorted_perm.
    + apply partition_by_keys; [apply group_by_file_keys_NoDup|].
      intros i Hi. apply group_by_file_keys_elem, list_elem_of_fmap. by exists i.
Qed.

(** X13.  The report depends on which issues were recorded, not on the
    order in which they were recorded. *)
Theorem report_depends_on_the_issues_only (issues1 issues2 : list issue) :
  issues1 ≡ₚ issues2 → print_report issues1 = print_report issues2.
Proof.
  intros Hp.
  assert (Hb : report_blocks issues1 = report_blocks issues2).
  { unfold report_blocks.
    assert (Hk : sorted str_lt (map fst (group_by_file issues1))
                 = sorted str_lt (map fst (group_by_file issues2))).
    { apply (sorted_unique str_lt str_lt_asym).
      apply NoDup_Permutation; try apply group_by_file_keys_NoDup.
      intros f. rewrite !group_by_file_keys_elem.
      pose proof (Permutation_map issue_file Hp) as Hm. by rewrite Hm. }
    rewrite Hk. apply map_ext. intros f. f_equal.
    apply (sorted_unique entry_lt entry_lt_asym).
    rewrite !group_by_file_get. apply Permutation_map. by rewrite Hp. }
  unfold print_report. rewrite Hb.
  destruct issues1 as [|i1 l1], issues2 as [|i2 l2].
  - done.
  - by apply Permutation_nil_cons in Hp.
  - symmetry in Hp. by apply Permutation_nil_cons in Hp.
  - by rewrite (Permutation_length Hp).
Qed.

Lemma report_depends_on_the_issues_only_witness :
  [("b.clj", 4, "late"); ("a.clj", 2, "early")]
    ≡ₚ [("a.clj", 2, "early"); ("b.clj", 4, "late")]
  ∧ print_report [("b.clj", 4, "late"); ("a.clj", 2, "early")]
    = print_report [("a.clj", 2, "early"); ("b.clj", 4, "late")].
Proof.
  assert (H : [("b.clj", 4, "late"); ("a.clj", 2, "early")]
                ≡ₚ [("a.clj", 2, "early"); ("b.clj", 4, "late")])
    by apply perm_swap.
  split; [exact H|]. exact (report_depends_on_the_issues_only _ _ H).
Defined.

Lemma check_call_line file r L s (i : issue) :
  i ∈ check_call file r [] (L, s) → i.1.2 = L.
Proof.
  destruct (check_call_cases file r L s) as [(D & _ & _ & _ & ->)|[_ ->]].
  - by intros ->%list_elem_of_singleton.
  - by intros ?%elem_of_nil.
Qed.

(** X14.  The issues that one file adds stand in the order of their
    line numbers, so the sort of the report only ever reorders entries
    of the same line. *)
Theorem file_issues_in_line_order (fs : filesystem) (path : Path) :
  StronglySorted Z.le (map (fun i : issue => i.1.2) (analyze_file fs [] path)).
Proof.
  unfold analyze_file. destruct (fs path) as [content|e].
  2:{ simpl. repeat constructor. }
  unfold check_calls. rewrite foldl_check_call. cbn [app].
  pose proof (calls_of_lines_sorted (header_namespaces content) 1
                (split "010" content)) as Hs.
  rewrite <- parse_file_calls in Hs.
  set (r := parse_file content) in *. clearbody r.
  induction (calls r) as [|[L s] cs IH]; [constructor|].
  cbn [map concat fst] in *. apply StronglySorted_inv in Hs as [Hs Hall].
  rewrite map_app. apply StronglySorted_app. split; [|split].
  - intros L1 L2 (i1 & -> & H1)%list_elem_of_fmap (i2 & -> & H2)%list_elem_of_fmap.
    apply check_call_line in H1 as ->.
    apply elem_of_concat_map in H2 as ([L' s'] & Hin & H2).
    apply check_call_line in H2 as ->.
    rewrite Forall_forall in Hall. apply Hall.
    apply list_elem_of_fmap. by exists (L', s').
  - destruct (check_call_cases (path_str path) r L s) as [(D & _ & _ & _ & ->)|[_ ->]];
      simpl; repeat constructor.
  - by apply IH.
Qed.
